(** * Address resolution for polling stations: a shallow embedding

    The three scripts of [estrategico/scripts] are embedded as Rocq
    functions:
    - [preparar_casillas_para_geocodificar - copia.py] (modules [Preparar]
      and [PrepararMain]),
    - [geocodificar_casillas.py] (module [V1], the cached pipeline),
    - [geocodificar_casillas_gto_v2.py] (module [V2], the tiered pipeline).

    A Python [str] is a sequence of Unicode code points, here [list Z].
    Dictionaries are [gmap]s, the [seen] set is a [gset].  The geocoding
    service is an oracle that answers the n-th call of a run. *)

From stdpp Require Import gmap strings list fin_maps sorting pretty.
From Stdlib Require Import ZArith QArith_base.

Local Open Scope Z_scope.

(** ** Python strings *)

Abbreviation str := (list Z).

(** An ASCII literal of the source, as code points. *)
Definition lit (s : string) : str :=
  (λ a, Z.of_N (Ascii.N_of_ascii a)) <$> String.list_ascii_of_string s.

(** [not s] for a string. *)
Definition falsy (s : str) : bool := match s with [] => true | _ => false end.
Definition truthy (s : str) : bool := negb (falsy s).

(** The tables of [unicodedata] and of the case mappings are not part of
    the repository; they are taken as an interface. *)
Class Unicodedata := {
  (** [str.upper] of one code point (the full mapping, up to 3 code points) *)
  upper_char : Z → str;
  (** [str.title] *)
  title : str → str;
  (** [unicodedata.normalize("NFD", _)] *)
  nfd : str → str;
  (** [unicodedata.category(c) == "Mn"] *)
  is_Mn : Z → bool;
  (** [\d] of [re] on [str] patterns: category Nd *)
  is_decimal : Z → bool;
}.

Module Py.

(** [str.isspace] for one code point, the set that [split()], [strip()]
    and the [\s] of [re] use. *)
Definition is_space (c : Z) : bool :=
  ((9 <=? c) && (c <=? 13)) || ((28 <=? c) && (c <=? 32))
  || (c =? 133) || (c =? 160) || (c =? 5760)
  || ((8192 <=? c) && (c <=? 8202))
  || (c =? 8232) || (c =? 8233) || (c =? 8239) || (c =? 8287) || (c =? 12288).

Definition eqz (a b : Z) : bool := a =? b.

(** [s.startswith(p)] *)
Fixpoint starts_with (p s : str) : bool :=
  match p, s with
  | [], _ => true
  | a :: p', b :: s' => eqz a b && starts_with p' s'
  | _ :: _, [] => false
  end.

(** [s.find(sub)], searching from offset [i]; -1 when absent. *)
Fixpoint find_from (sub s : str) (i : Z) : Z :=
  if starts_with sub s then i
  else match s with
       | [] => -1
       | _ :: s' => find_from sub s' (i + 1)
       end.

Definition find (s sub : str) : Z := find_from sub s 0.

(** [sub in s] *)
Definition contains (sub s : str) : bool := negb (find s sub =? -1).

(** [s[:i]] for [0 <= i] *)
Definition slice_to (s : str) (i : Z) : str := take (Z.to_nat i) s.

(** [s.replace(old, new)]: leftmost, non-overlapping.  [skip] counts the
    code points of a match that are still to be stepped over. *)
Fixpoint replace_go (old new : str) (skip : nat) (s : str) : str :=
  match s with
  | [] => []
  | c :: s' =>
      match skip with
      | S k => replace_go old new k s'
      | O =>
          if starts_with old s
          then new ++ replace_go old new (length old - 1) s'
          else c :: replace_go old new O s'
      end
  end.

Definition replace (s old new : str) : str :=
  match old with
  | [] => new ++ flat_map (λ c, c :: new) s
  | _ => replace_go old new O s
  end.

(** [s.split()]: maximal runs of non-space code points. *)
Fixpoint split_go (word : str) (s : str) : list str :=
  match s with
  | [] => match word with [] => [] | _ => [word] end
  | c :: s' =>
      if is_space c
      then match word with
           | [] => split_go [] s'
           | _ => word :: split_go [] s'
           end
      else split_go (word ++ [c]) s'
  end.

Definition split (s : str) : list str := split_go [] s.

(** [sep.join(parts)] *)
Fixpoint join (sep : str) (parts : list str) : str :=
  match parts with
  | [] => []
  | [w] => w
  | w :: rest => w ++ sep ++ join sep rest
  end.

Fixpoint lstrip_by (p : Z → bool) (s : str) : str :=
  match s with
  | c :: s' => if p c then lstrip_by p s' else s
  | [] => []
  end.

Fixpoint rstrip_by (p : Z → bool) (s : str) : str :=
  match s with
  | [] => []
  | c :: s' =>
      match rstrip_by p s' with
      | [] => if p c then [] else [c]
      | r => c :: r
      end
  end.

Definition strip_by (p : Z → bool) (s : str) : str :=
  rstrip_by p (lstrip_by p s).

(** [s.strip()] *)
Definition strip (s : str) : str := strip_by is_space s.

(** [s.strip(chars)] *)
Definition strip_chars (s chars : str) : str :=
  strip_by (λ c, existsb (eqz c) chars) s.

(** [s.upper()]: code point by code point. *)
Definition upper `{Unicodedata} (s : str) : str := flat_map upper_char s.

End Py.

(** ** The fragment of [re] the scripts use

    Quantifiers are only applied to character classes in the source
    patterns; they are greedy and give back on failure, as in [re].
    Groups are not nested there, so the order in which they close is
    their numbering. *)
Module Re.

Inductive regex :=
| Eps
| Chr (c : Z)
| Cls (p : Z → bool)
| Star (p : Z → bool)
| Plus (p : Z → bool)
| Cat (r1 r2 : regex)
| Grp (r : regex)
| Bol.

(** A literal piece of a pattern. *)
Fixpoint Str (l : str) : regex :=
  match l with
  | [] => Eps
  | c :: l' => Cat (Chr c) (Str l')
  end.

(** [\d{n}] and the like. *)
Fixpoint Rep (n : nat) (p : Z → bool) : regex :=
  match n with
  | O => Eps
  | S n' => Cat (Cls p) (Rep n' p)
  end.

Section Matcher.
Context {T : Type}.

(** Continuations get the position reached, the rest of the subject and
    the groups closed so far. *)
Definition cont := nat → str → list str → option T.

(** Greedy [p*]: the longest run first, shorter ones on failure. *)
Fixpoint star (p : Z → bool) (pos : nat) (s : str) (k : nat → str → option T)
  : option T :=
  match s with
  | c :: s' =>
      if p c
      then match star p (S pos) s' k with
           | Some r => Some r
           | None => k pos s
           end
      else k pos s
  | [] => k pos s
  end.

Fixpoint run (r : regex) (pos : nat) (s : str) (caps : list str) (k : cont)
  : option T :=
  match r with
  | Eps => k pos s caps
  | Chr c =>
      match s with
      | x :: s' => if Py.eqz x c then k (S pos) s' caps else None
      | [] => None
      end
  | Cls p =>
      match s with
      | x :: s' => if p x then k (S pos) s' caps else None
      | [] => None
      end
  | Star p => star p pos s (λ pos' s', k pos' s' caps)
  | Plus p =>
      match s with
      | x :: s' =>
          if p x then star p (S pos) s' (λ pos' s', k pos' s' caps) else None
      | [] => None
      end
  | Cat r1 r2 => run r1 pos s caps (λ pos' s' caps', run r2 pos' s' caps' k)
  | Grp r1 =>
      run r1 pos s caps
        (λ pos' s' caps', k pos' s' (caps' ++ [take (pos' - pos) s]))
  | Bol => match pos with O => k pos s caps | S _ => None end
  end.
End Matcher.

(** A match object: where the match ends and its groups. *)
Record match_obj := { m_end : nat; m_groups : list str }.

Definition match_at (r : regex) (pos : nat) (s : str) : option match_obj :=
  run r pos s [] (λ pos' _ caps, Some {| m_end := pos'; m_groups := caps |}).

(** [re.search(r, s)] with the scan at offset [pos]. *)
Fixpoint search_from (r : regex) (pos : nat) (s : str) : option match_obj :=
  match match_at r pos s with
  | Some m => Some m
  | None =>
      match s with
      | [] => None
      | _ :: s' => search_from r (S pos) s'
      end
  end.

Definition search (r : regex) (s : str) : option match_obj := search_from r O s.

(** [m.group(i)], groups counted from 1. *)
Definition group (m : match_obj) (i : nat) : str :=
  default [] (m_groups m !! (i - 1)%nat).

(** [re.sub(r, repl, s)] for a constant replacement.  An empty match
    inserts [repl] and moves on by one code point. *)
Fixpoint sub_go (r : regex) (repl : str) (pos skip : nat) (s : str) : str :=
  match skip with
  | S k =>
      match s with
      | [] => []
      | _ :: s' => sub_go r repl (S pos) k s'
      end
  | O =>
      match match_at r pos s with
      | Some m =>
          match s with
          | [] => repl
          | c :: s' =>
              if (m_end m =? pos)%nat
              then repl ++ c :: sub_go r repl (S pos) O s'
              else repl ++ sub_go r repl (S pos) (m_end m - pos - 1) s'
          end
      | None =>
          match s with
          | [] => []
          | c :: s' => c :: sub_go r repl (S pos) O s'
          end
      end
  end.

Definition sub (r : regex) (repl s : str) : str := sub_go r repl O O s.

End Re.

(** ** A table for evaluation

    [Latin1.table] implements the interface for ASCII and Latin-1.  It
    agrees with CPython on text whose code points are below U+0100, also
    when a combining mark of U+0300..U+033F follows a base letter singly
    (no reordering of marks is needed then); elsewhere it leaves the
    code points as they are. *)
Module Latin1.

Definition is_lower (c : Z) : bool :=
  ((97 <=? c) && (c <=? 122))
  || ((224 <=? c) && (c <=? 254) && negb (c =? 247)).

Definition is_upper (c : Z) : bool :=
  ((65 <=? c) && (c <=? 90))
  || ((192 <=? c) && (c <=? 222) && negb (c =? 215)).

Definition to_upper (c : Z) : str :=
  if is_lower c then [c - 32]
  else if c =? 223 then [83; 83]
  else if c =? 181 then [924]
  else if c =? 255 then [376]
  else [c].

Definition to_lower (c : Z) : str :=
  if is_upper c then [c + 32] else [c].

Definition to_title (c : Z) : str :=
  if c =? 223 then [83; 115] else to_upper c.

Definition is_cased (c : Z) : bool :=
  is_lower c || is_upper c
  || (c =? 170) || (c =? 181) || (c =? 186) || (c =? 223) || (c =? 255).

Fixpoint title_go (previous_is_cased : bool) (s : str) : str :=
  match s with
  | [] => []
  | c :: s' =>
      (if previous_is_cased then to_lower c else to_title c)
        ++ title_go (is_cased c) s'
  end.

(** Canonical decompositions of U+00C0..U+00DE, by offset: the mark
    that follows the base letter, 0 for none. *)
Definition marks : list Z :=
  [768; 769; 770; 771; 776; 778; 0; 807;
   768; 769; 770; 776; 768; 769; 770; 776;
   0; 771; 768; 769; 770; 771; 776; 0;
   0; 768; 769; 770; 776; 769; 0].

Definition bases : list Z :=
  [65; 65; 65; 65; 65; 65; 0; 67;
   69; 69; 69; 69; 73; 73; 73; 73;
   0; 78; 79; 79; 79; 79; 79; 0;
   0; 85; 85; 85; 85; 89; 0].

Definition decompose (c : Z) : str :=
  if c =? 255 then [121; 776]
  else if (192 <=? c) && (c <=? 222) then
    let i := Z.to_nat (c - 192) in
    match marks !! i, bases !! i with
    | Some m, Some b => if m =? 0 then [c] else [b; m]
    | _, _ => [c]
    end
  else if (224 <=? c) && (c <=? 254) then
    let i := Z.to_nat (c - 224) in
    match marks !! i, bases !! i with
    | Some m, Some b => if m =? 0 then [c] else [b + 32; m]
    | _, _ => [c]
    end
  else [c].

Definition table : Unicodedata := {|
  upper_char := to_upper;
  title := title_go false;
  nfd := flat_map decompose;
  is_Mn := λ c, (768 <=? c) && (c <=? 879);
  is_decimal := λ c, (48 <=? c) && (c <=? 57);
|}.

End Latin1.

(** ** [preparar_casillas_para_geocodificar - copia.py] *)
Module Preparar.
Section WithTables.
Context `{Unicodedata}.

(** [^DOMICILIO\s*:\s*] *)
Definition re_etiqueta : Re.regex :=
  Re.Cat Re.Bol
    (Re.Cat (Re.Str (lit "DOMICILIO"))
       (Re.Cat (Re.Star Py.is_space)
          (Re.Cat (Re.Chr 58) (Re.Star Py.is_space)))).

(** [\s+] *)
Definition re_espacios : Re.regex := Re.Plus Py.is_space.

(** The dictionary [reemplazos], in the order its items are visited. *)
Definition reemplazos : list (str * str) :=
  [ (lit " NO. ", lit " ");
    (lit " NUM. ", lit " ");
    (lit " NUMERO ", lit " ");
    (lit " N" ++ [218] ++ lit "M. ", lit " ");
    (lit " S/N", lit " SN");
    (lit "C/", lit "CALLE ");
    (lit " C. ", lit " CALLE ") ].

Definition limpiar_domicilio (raw : str) : str :=
  if falsy raw then []
  else
    let txt := Py.strip (Py.upper raw) in
    let txt := Re.sub re_etiqueta [] txt in
    let txt := Re.sub re_espacios (lit " ") txt in
    let txt := foldl (λ txt kv, Py.replace txt kv.1 kv.2) txt reemplazos in
    Py.strip_chars txt (lit ",.;- ").

Definition marcadores : list str :=
  [ lit " COLONIA "; lit " COL. "; lit " FRACCIONAMIENTO "; lit " FRACC. ";
    lit " BARRIO "; lit " ZONA "; lit " COMUNIDAD "; lit " COL ";
    lit " FRACC " ].

(** The loop over [marcadores]: the least index found so far. *)
Definition corte (base : str) (corte_pos : Z) (mks : list str) : Z :=
  foldl (λ corte_pos mk,
           let idx := Py.find base mk in
           if negb (idx =? -1) && (idx <? corte_pos) then idx else corte_pos)
        corte_pos mks.

Definition domicilio_corto (txt : str) : str :=
  if falsy txt then []
  else
    let base := lit " " ++ txt ++ lit " " in
    let corte_pos := corte base (Z.of_nat (length base)) marcadores in
    let corto := Py.strip (Py.slice_to base corte_pos) in
    Py.strip_chars corto (lit ",.;- ").

End WithTables.
End Preparar.

(** ** Text functions of [geocodificar_casillas_gto_v2.py] *)
Module V2Text.
Section WithTables.
Context `{Unicodedata}.

Definition enie_min : str := [241].
Definition enie_may : str := [209].
Definition tok_min : str := lit "__enie_min__".
Definition tok_may : str := lit "__enie_may__".

Definition strip_accents_keep_enie (text : str) : str :=
  if falsy text then []
  else
    let text := Py.join (lit " ") (Py.split text) in
    let text := Py.replace text enie_min tok_min in
    let text := Py.replace text enie_may tok_may in
    let normalized := nfd text in
    let without_marks := filter (λ ch, is_Mn ch = false) normalized in
    let without_marks := Py.replace without_marks tok_min enie_min in
    let without_marks := Py.replace without_marks tok_may enie_may in
    without_marks.

Definition cortes : list str :=
  [ lit " A 50 METROS"; lit " A 100 METROS"; lit " A 200 METROS";
    lit " A UN COSTADO"; lit " FRENTE A "; lit " FRENTE AL ";
    lit " ENTRE CALLE"; lit " ENTRE LA CALLE"; lit " ESQUINA ";
    lit " ESQ. "; lit " ESQ "; lit " SOBRE LA CARRETERA";
    lit " SOBRE CARRETERA"; lit " LADO DERECHO"; lit " LADO IZQUIERDO";
    lit " A ESPALDAS" ].

(** The loop over [cortes]: cut at the first phrase of the list that
    occurs, then [break]. *)
Fixpoint cortar (txt : str) (marcas : list str) : str :=
  match marcas with
  | [] => txt
  | marca :: rest =>
      let idx := Py.find txt marca in
      if negb (idx =? -1) then Py.slice_to txt idx else cortar txt rest
  end.

Definition limpiar_frases_basura (domicilio : str) : str :=
  if falsy domicilio then []
  else
    let txt := Py.upper domicilio in
    let txt := cortar txt cortes in
    let txt := Py.replace txt (lit " SIN NUMERO") [] in
    let txt := Py.replace txt (lit " S/N") [] in
    let txt := Py.join (lit " ") (Py.split txt) in
    Py.strip_chars txt (lit ", ").

Definition construir_domicilio_corto
    (domicilio_limpio : str) (localidad : option str) : str :=
  let partes := [] in
  let partes :=
    if truthy domicilio_limpio then partes ++ [domicilio_limpio] else partes in
  let loc := Py.strip (default [] localidad) in
  let partes :=
    if truthy loc
       && negb (Py.contains (Py.upper loc) (Py.upper domicilio_limpio))
    then partes ++ [loc] else partes in
  Py.join (lit ", ") partes.

Definition estado_pais : str := lit "Guanajuato, Mexico".

(** The three conditionals of [armar_queries_geocod], each as the
    items it appends; the last [append] is unconditional. *)
Definition bloque1 (domicilio_corto muni : str) : list str :=
  if truthy domicilio_corto && truthy muni
  then [domicilio_corto ++ lit ", " ++ muni ++ lit ", " ++ estado_pais]
  else if truthy domicilio_corto
  then [domicilio_corto ++ lit ", " ++ estado_pais]
  else [].

Definition bloque2 (loc muni : str) : list str :=
  if truthy loc && truthy muni
  then [loc ++ lit ", " ++ muni ++ lit ", " ++ estado_pais]
  else if truthy loc
  then [loc ++ lit ", " ++ estado_pais]
  else [].

Definition bloque3 (muni : str) : list str :=
  if truthy muni then [muni ++ lit ", " ++ estado_pais] else [].

(** The loop that drops duplicates, keeping the first of each. *)
Fixpoint unicos (seen : gset str) (qs : list str) : list str :=
  match qs with
  | [] => []
  | q :: rest =>
      if decide (q ∈ seen) then unicos seen rest
      else q :: unicos ({[q]} ∪ seen) rest
  end.

Definition queries_norm
    (domicilio_corto : str) (localidad municipio : option str) : list str :=
  let loc := Py.strip (default [] localidad) in
  let muni := Py.strip (default [] municipio) in
  let queries :=
    bloque1 domicilio_corto muni ++ bloque2 loc muni ++ bloque3 muni
      ++ [estado_pais] in
  strip_accents_keep_enie <$> queries.

Definition armar_queries_geocod
    (domicilio_corto : str) (localidad municipio : option str) : list str :=
  unicos ∅ (queries_norm domicilio_corto localidad municipio).

End WithTables.
End V2Text.

(** ** The geocoding service and the output records *)

(** What [geopy] hands back: a [Location] with its two coordinates. *)
Record location := { longitude : Q; latitude : Q }.

(** One call of the rate-limited callable [geocode(q)]: a [Location],
    [None], or an exception. *)
Inductive outcome := Found (loc : location) | NoMatch | Raised.

(** The service answers the n-th call of a run (n counted from 0) for
    the query it is given; nothing is assumed about its answers. *)
Definition geocoder := nat → str → outcome.

(** [{"type": "Point", "coordinates": [lon, lat]}] *)
Record point := { coordinates : Q * Q }.

Definition punto (loc : location) : point :=
  {| coordinates := (longitude loc, latitude loc) |}.

(** A GeoJSON Feature, as far as the scripts read or write it.
    [properties = None] is a Feature that has no such member.  The
    values the scripts read from [properties] are strings, as the
    preparation script writes them. *)
Record feature := {
  properties : option (gmap string str);
  geometry : option point;
}.

Definition truthy_opt (o : option str) : bool :=
  match o with Some s => truthy s | None => false end.

(** [d.get(k) or ""] *)
Definition get_or_empty (d : gmap string str) (k : string) : str :=
  match d !! k with
  | Some v => if truthy v then v else []
  | None => []
  end.

Definition OK : str := lit "OK".
Definition SIN_MATCH : str := lit "SIN_MATCH".
Definition SIN_DIRECCION : str := lit "SIN_DIRECCION".

(** The status a Feature carries in its properties, if any. *)
Definition status_of (f : feature) : option str :=
  properties f ≫= λ props, props !! "GEOCOD_STATUS"%string.

Definition query_of (f : feature) : option str :=
  properties f ≫= λ props, props !! "GEOCOD_QUERY"%string.

(** ** [geocodificar_casillas.py] *)
Module V1.
Section WithTables.
Context `{Unicodedata}.

Definition no_coma (c : Z) : bool := negb (Py.eqz c 44).

(** [,\s*(\d{5}),\s*([^,]+),\s*GUANAJUATO] *)
Definition re_cp_mpio : Re.regex :=
  Re.Cat (Re.Chr 44)
    (Re.Cat (Re.Star Py.is_space)
       (Re.Cat (Re.Grp (Re.Rep 5 is_decimal))
          (Re.Cat (Re.Chr 44)
             (Re.Cat (Re.Star Py.is_space)
                (Re.Cat (Re.Grp (Re.Plus no_coma))
                   (Re.Cat (Re.Chr 44)
                      (Re.Cat (Re.Star Py.is_space)
                         (Re.Str (lit "GUANAJUATO"))))))))).

Definition extraer_cp_y_mpio (dom_full : str) : option str * option str :=
  if falsy dom_full then (None, None)
  else
    let txt := Py.upper dom_full in
    match Re.search re_cp_mpio txt with
    | Some m =>
        let cp := Re.group m 1 in
        let mpio := title (Re.group m 2) in
        (Some cp, Some mpio)
    | None => (None, None)
    end.

Definition LOCALIDAD_CORR : gmap str str :=
  <[ lit "ESTACI" ++ [211] ++ lit "N JOAQU" ++ [211] ++ lit "N"
     := lit "Estaci" ++ [243] ++ lit "n Joaqu" ++ [237] ++ lit "n" ]>
  (<[ lit "SAN JOS DE GONZ" ++ [924] ++ lit "LEZ"
      := lit "San Jos" ++ [233] ++ lit " de Gonz" ++ [225] ++ lit "lez" ]>
  (<[ lit "ALTO DE ALCOCER" := lit "Alto de Alcocer" ]> ∅)).

(** [LOCALIDAD\s+([^,]+)] *)
Definition re_localidad : Re.regex :=
  Re.Cat (Re.Str (lit "LOCALIDAD"))
    (Re.Cat (Re.Plus Py.is_space) (Re.Grp (Re.Plus no_coma))).

(** [,\s*([^,]+),\s*(\d{5}),\s*ABASOLO] *)
Definition re_abasolo : Re.regex :=
  Re.Cat (Re.Chr 44)
    (Re.Cat (Re.Star Py.is_space)
       (Re.Cat (Re.Grp (Re.Plus no_coma))
          (Re.Cat (Re.Chr 44)
             (Re.Cat (Re.Star Py.is_space)
                (Re.Cat (Re.Grp (Re.Rep 5 is_decimal))
                   (Re.Cat (Re.Chr 44)
                      (Re.Cat (Re.Star Py.is_space)
                         (Re.Str (lit "ABASOLO"))))))))).

Definition extraer_localidad (dom_full : str) : option str :=
  if falsy dom_full then None
  else
    let txt := Py.upper dom_full in
    let loc :=
      match Re.search re_localidad txt with
      | Some m => Some (Py.upper (Py.strip (Re.group m 1)))
      | None =>
          match Re.search re_abasolo txt with
          | None => None
          | Some m2 => Some (Py.upper (Py.strip (Re.group m2 1)))
          end
      end in
    match loc with
    | None => None
    | Some loc =>
        let loc_corr := default loc (LOCALIDAD_CORR !! loc) in
        Some (title loc_corr)
    end.

Definition estado_pais : str := lit ", Guanajuato, M" ++ [233] ++ lit "xico".

Definition build_query (props : gmap string str) : option str :=
  let dom_corto := get_or_empty props "DOMICILIO_CORTO" in
  let dom_limpio := get_or_empty props "DOMICILIO_LIMPIO" in
  let dom_full := get_or_empty props "DOMICILIO" in
  if falsy dom_corto && falsy dom_limpio && falsy dom_full then None
  else
    let '(cp, mpio) := extraer_cp_y_mpio dom_full in
    let localidad := extraer_localidad dom_full in
    if truthy_opt localidad && truthy_opt mpio
    then Some (default [] localidad ++ lit ", " ++ default [] mpio ++ estado_pais)
    else if truthy_opt mpio
    then Some (default [] mpio ++ estado_pais)
    else
      let base :=
        if truthy dom_corto then dom_corto
        else if truthy dom_limpio then dom_limpio else dom_full in
      Some (base ++ estado_pais).

(** The variables of [main] that live across records.  [calls] is not
    in the script: it records, in order, the queries handed to
    [geocode]. *)
Record state := {
  cache : gmap str (option location);
  ok : nat;
  fail : nat;
  calls : list str;
}.

Definition inicio : state :=
  {| cache := ∅; ok := O; fail := O; calls := [] |}.

(** [cache[q]] on a hit, else the call and the store. *)
Definition lookup (geocode : geocoder) (st : state) (q : str)
  : option location * state :=
  match cache st !! q with
  | Some loc => (loc, st)
  | None =>
      let loc :=
        match geocode (length (calls st)) q with
        | Found l => Some l
        | NoMatch => None
        | Raised => None
        end in
      (loc, {| cache := <[q := loc]> (cache st); ok := ok st;
               fail := fail st; calls := calls st ++ [q] |})
  end.

(** One turn of the loop of [main].  [props] is the Feature's own
    dictionary when it has one; otherwise it is the fresh default of
    [feat.get("properties", {})], and what is written to it does not
    reach the Feature. *)
Definition paso (geocode : geocoder) (st : state) (feat : feature)
  : state * feature :=
  let props := default ∅ (properties feat) in
  let escrito (props' : gmap string str) := (λ _, props') <$> properties feat in
  let q := build_query props in
  if negb (truthy_opt q) then
    ({| cache := cache st; ok := ok st; fail := S (fail st); calls := calls st |},
     {| properties := escrito (<["GEOCOD_STATUS"%string := SIN_DIRECCION]> props);
        geometry := None |})
  else
    let q := default [] q in
    let '(loc, st) := lookup geocode st q in
    match loc with
    | Some loc =>
        ({| cache := cache st; ok := S (ok st); fail := fail st; calls := calls st |},
         {| properties :=
              escrito (<["GEOCOD_QUERY"%string := q]>
                         (<["GEOCOD_STATUS"%string := OK]> props));
            geometry := Some (punto loc) |})
    | None =>
        ({| cache := cache st; ok := ok st; fail := S (fail st); calls := calls st |},
         {| properties :=
              escrito (<["GEOCOD_QUERY"%string := q]>
                         (<["GEOCOD_STATUS"%string := SIN_MATCH]> props));
            geometry := None |})
    end.

(** The loop of [main] over [features]. *)
Fixpoint bucle (geocode : geocoder) (st : state) (features : list feature)
  : state * list feature :=
  match features with
  | [] => (st, [])
  | feat :: rest =>
      let '(st, feat') := paso geocode st feat in
      let '(st, rest') := bucle geocode st rest in
      (st, feat' :: rest')
  end.

Definition main (geocode : geocoder) (features : list feature)
  : state * list feature :=
  bucle geocode inicio features.

End WithTables.
End V1.

(** ** [geocodificar_casillas_gto_v2.py], the process *)
Module V2.
Export V2Text.
Section WithTables.
Context `{Unicodedata}.

(** [(row.get(k) or "").strip()] *)
Definition campo (row : gmap string str) (k : string) : str :=
  Py.strip (get_or_empty row k).

(** The rows of the section-to-municipality table, read in order. *)
Definition cargar_mapa_seccion_municipio (rows : list (gmap string str))
  : gmap str str :=
  foldl (λ mapping row,
           let sec := campo row "SECCION" in
           let mun := campo row "MUNICIPIO" in
           if truthy sec && truthy mun then <[sec := mun]> mapping else mapping)
        ∅ rows.

(** The counters of [main], and [calls]: the queries handed to
    [geocode], in order (not a variable of the script). *)
Record state := {
  ok_count : nat;
  fail_count : nat;
  calls : list str;
}.

Definition inicio : state := {| ok_count := O; fail_count := O; calls := [] |}.

(** The three variables a record's loop over [queries] assigns. *)
Record intento := {
  i_geometry : option point;
  geocod_status : str;
  geocod_query : str;
}.

Definition llamado (st : state) (q : str) : state :=
  {| ok_count := ok_count st; fail_count := fail_count st;
     calls := calls st ++ [q] |}.

(** [for q in queries: ...] *)
Fixpoint probar (geocode : geocoder) (st : state) (r : intento)
    (queries : list str) : state * intento :=
  match queries with
  | [] => (st, r)
  | q :: rest =>
      if falsy q then probar geocode st r rest
      else
        match geocode (length (calls st)) q with
        | Raised => probar geocode (llamado st q) r rest
        | Found loc =>
            ({| ok_count := S (ok_count st); fail_count := fail_count st;
                calls := calls st ++ [q] |},
             {| i_geometry := Some (punto loc); geocod_status := OK;
                geocod_query := q |})
        | NoMatch =>
            probar geocode (llamado st q)
              {| i_geometry := i_geometry r; geocod_status := geocod_status r;
                 geocod_query := q |}
              rest
        end
  end.

(** One row of the input table. *)
Definition paso (mapa_muni : gmap str str) (geocode : geocoder)
    (st : state) (row : gmap string str) : state * feature :=
  let seccion := campo row "SECCION" in
  let casilla := campo row "CASILLA" in
  let localidad := campo row "LOCALIDAD" in
  let domicilio_original := campo row "DOMICILIO" in
  let municipio := default [] (mapa_muni !! seccion) in
  let dom_limpio := limpiar_frases_basura domicilio_original in
  let dom_corto := construir_domicilio_corto dom_limpio (Some localidad) in
  let props : gmap string str :=
    <["DOMICILIO_CORTO"%string := dom_corto]>
    (<["DOMICILIO_LIMPIO"%string := dom_limpio]>
    (<["DOMICILIO"%string := domicilio_original]>
    (<["LOCALIDAD"%string := localidad]>
    (<["CASILLA_ID"%string := casilla]>
    (<["SECCION"%string := seccion]> ∅))))) in
  let r := {| i_geometry := None; geocod_status := SIN_MATCH; geocod_query := [] |} in
  let queries := armar_queries_geocod dom_corto (Some localidad) (Some municipio) in
  let '(st, r) := probar geocode st r queries in
  let st :=
    if bool_decide (geocod_status r ≠ OK)
    then {| ok_count := ok_count st; fail_count := S (fail_count st);
            calls := calls st |}
    else st in
  let props := <["GEOCOD_STATUS"%string := geocod_status r]> props in
  let props := <["GEOCOD_QUERY"%string := geocod_query r]> props in
  (st, {| properties := Some props; geometry := i_geometry r |}).

Fixpoint bucle (mapa_muni : gmap str str) (geocode : geocoder)
    (st : state) (rows : list (gmap string str)) : state * list feature :=
  match rows with
  | [] => (st, [])
  | row :: rest =>
      let '(st, feat) := paso mapa_muni geocode st row in
      let '(st, rest') := bucle mapa_muni geocode st rest in
      (st, feat :: rest')
  end.

Definition main (muni_rows rows : list (gmap string str)) (geocode : geocoder)
  : state * list feature :=
  bucle (cargar_mapa_seccion_municipio muni_rows) geocode inicio rows.

End WithTables.
End V2.

(** ** [preparar_casillas_para_geocodificar - copia.py], the process *)
Module PrepararMain.

(** What the input holds under [SECCION]: a string, an integer or
    null. *)
Inductive valor := Texto (s : str) | Entero (n : Z) | Nulo.

(** [str(v)] *)
Definition py_str (v : valor) : str :=
  match v with
  | Texto s => s
  | Entero n => lit (pretty n)
  | Nulo => lit "None"
  end.

(** A row of the input, as far as [main] reads it; [dict(row)] copies
    its other members as they are.  [None] is a member that is missing.
    The values of a polling station's dictionary are strings. *)
Record fila := {
  SECCION : option valor;
  casillas : option (list (gmap string str));
}.

Section WithTables.
Context `{Unicodedata}.

(** The body of [for cas in casillas]: the enriched copy [cas2] and
    the Feature. *)
Definition paso_casilla (seccion : str) (cas : gmap string str)
  : gmap string str * feature :=
  let dom_original := get_or_empty cas "DOMICILIO" in
  let dom_limpio := Preparar.limpiar_domicilio dom_original in
  let dom_corto := Preparar.domicilio_corto dom_limpio in
  let cas2 :=
    <["DOMICILIO_CORTO"%string := dom_corto]>
      (<["DOMICILIO_LIMPIO"%string := dom_limpio]> cas) in
  let casilla_id :=
    if truthy (get_or_empty cas2 "CLAVE") then get_or_empty cas2 "CLAVE"
    else if truthy (get_or_empty cas2 "CASILLA") then get_or_empty cas2 "CASILLA"
    else get_or_empty cas2 "ID" in
  (cas2,
   {| geometry := None;
      properties := Some
        (<["DOMICILIO_CORTO"%string := dom_corto]>
        (<["DOMICILIO_LIMPIO"%string := dom_limpio]>
        (<["DOMICILIO"%string := dom_original]>
        (<["TIPO"%string := default [] (cas2 !! "TIPO"%string)]>
        (<["CASILLA_ID"%string := casilla_id]>
        (<["SECCION"%string := seccion]> ∅)))))) |}).

(** The body of [for row in data]: the enriched row and the Features
    of its polling stations, in order. *)
Definition paso_fila (row : fila) : fila * list feature :=
  let seccion := Py.strip (from_option py_str [] (SECCION row)) in
  let hechas := paso_casilla seccion <$> default [] (casillas row) in
  ({| SECCION := SECCION row; casillas := Some (hechas.*1) |}, hechas.*2).

(** [data_enriquecido] and [features] as [main] writes them. *)
Definition main (data : list fila) : list fila * list feature :=
  let hechas := paso_fila <$> data in
  (hechas.*1, concat (hechas.*2)).

End WithTables.
End PrepararMain.

(** ** The embedding on small inputs *)

Example replace_no_solapa :
  Py.replace (lit "aaaa") (lit "aa") (lit "b") = lit "bb"
  ∧ Py.replace (lit "ab") [] (lit "-") = lit "-a-b-".
Proof. by vm_compute. Qed.

Example split_y_join :
  Py.join (lit " ") (Py.split (lit "  a   b c ")) = lit "a b c".
Proof. by vm_compute. Qed.

Example strip_chars_ambos_lados :
  Py.strip_chars (lit ",, a b, ") (lit ", ") = lit "a b".
Proof. by vm_compute. Qed.

Example find_primero :
  Py.find (lit "hello") (lit "l") = 2 ∧ Py.find (lit "hello") (lit "z") = -1.
Proof. by vm_compute. Qed.

Example sub_vacios :
  Re.sub (Re.Star (Py.eqz 120)) (lit "-") (lit "abxd") = lit "-a-b--d-".
Proof. by vm_compute. Qed.

Example search_devuelve_espacios :
  (λ m, Re.group m 2) <$> Re.search (@V1.re_cp_mpio Latin1.table)
                            (lit "X, 36970,  , GUANAJUATO")
  = Some (lit " ").
Proof. by vm_compute. Qed.

Example limpiar_domicilio_etiqueta :
  @Preparar.limpiar_domicilio Latin1.table
    (lit "Domicilio:  calle Hidalgo no. 12, colonia Centro.")
  = lit "CALLE HIDALGO 12, COLONIA CENTRO".
Proof. by vm_compute. Qed.

Example domicilio_corto_colonia :
  Preparar.domicilio_corto (lit "CALLE HIDALGO 12, COLONIA CENTRO")
  = lit "CALLE HIDALGO 12".
Proof. by vm_compute. Qed.

Example armar_queries_primera :
  head (@V2Text.armar_queries_geocod Latin1.table
          (lit "CALLE HIDALGO 12") (Some []) (Some (lit "LEON")))
  = Some (lit "CALLE HIDALGO 12, LEON, Guanajuato, Mexico").
Proof. by vm_compute. Qed.

Example extraer_de_abasolo :
  @V1.extraer_cp_y_mpio Latin1.table
    (lit "Calle X 1, localidad alto de alcocer, 36970, abasolo, Guanajuato")
  = (Some (lit "36970"), Some (lit "Abasolo"))
  ∧ @V1.extraer_localidad Latin1.table
      (lit "Calle X 1, localidad alto de alcocer, 36970, abasolo, Guanajuato")
    = Some (lit "Alto De Alcocer").
Proof. by vm_compute. Qed.

Example preparar_main_ejemplo :
  let data :=
    [ {| PrepararMain.SECCION := Some (PrepararMain.Entero 1480);
         PrepararMain.casillas := Some
           [ {[ "CLAVE"%string := lit "B1";
                "DOMICILIO"%string
                  := lit "Calle Hidalgo No. 12, Colonia Centro" ]} ] |} ] in
  let campo k := (λ f, properties f ≫= λ props, props !! k)
                   <$> (@PrepararMain.main Latin1.table data).2 in
  campo "SECCION"%string = [Some (lit "1480")]
  ∧ campo "CASILLA_ID"%string = [Some (lit "B1")]
  ∧ campo "TIPO"%string = [Some []]
  ∧ campo "DOMICILIO_LIMPIO"%string
    = [Some (lit "CALLE HIDALGO 12, COLONIA CENTRO")]
  ∧ campo "DOMICILIO_CORTO"%string = [Some (lit "CALLE HIDALGO 12")].
Proof. by vm_compute. Qed.

(** * What a match means

    [denote r w gs]: the pattern [r] matches exactly the text [w], and
    its groups, in the order they close, hold [gs]. *)
Module ReSem.
Import Re.

Fixpoint denote (r : regex) (w : str) (gs : list str) : Prop :=
  match r with
  | Eps => w = [] ∧ gs = []
  | Chr c => w = [c] ∧ gs = []
  | Cls p => (∃ x, w = [x] ∧ p x = true) ∧ gs = []
  | Star p => Forall (λ c, p c = true) w ∧ gs = []
  | Plus p => w ≠ [] ∧ Forall (λ c, p c = true) w ∧ gs = []
  | Cat r1 r2 =>
      ∃ w1 w2 g1 g2,
        w = w1 ++ w2 ∧ gs = g1 ++ g2 ∧ denote r1 w1 g1 ∧ denote r2 w2 g2
  | Grp r1 => ∃ g, denote r1 w g ∧ gs = g ++ [w]
  | Bol => w = [] ∧ gs = []
  end.

Lemma star_sound {T} p pos s (k : nat → str → option T) x :
  star p pos s k = Some x →
  ∃ w s', s = w ++ s' ∧ Forall (λ c, p c = true) w
          ∧ k (pos + length w)%nat s' = Some x.
Proof.
  revert pos. induction s as [|c s IH]; intros pos Hs; simpl in Hs.
  - exists [], []. by rewrite Nat.add_0_r.
  - destruct (p c) eqn:Hc.
    + destruct (star p (S pos) s k) as [y|] eqn:Hy.
      * injection Hs as ->. apply IH in Hy as (w & s' & -> & Hw & Hk).
        exists (c :: w), s'. split_and!; [done | by constructor |].
        simpl. by rewrite Nat.add_succ_r.
      * exists [], (c :: s). by rewrite Nat.add_0_r.
    + exists [], (c :: s). by rewrite Nat.add_0_r.
Qed.

Lemma run_sound {T} r :
  ∀ pos s caps (k : cont) (x : T),
    run r pos s caps k = Some x →
    ∃ w s' gs, s = w ++ s' ∧ denote r w gs
               ∧ k (pos + length w)%nat s' (caps ++ gs) = Some x.
Proof.
  induction r as [|c|p|p|p|r1 IH1 r2 IH2|r1 IH1|];
    intros pos s caps k x Hrun; simpl in Hrun.
  - exists [], s, []. by rewrite Nat.add_0_r, app_nil_r.
  - destruct s as [|y s]; [done|]. unfold Py.eqz in Hrun.
    destruct (Z.eqb_spec y c) as [->|]; [|done].
    exists [c], s, []. simpl. by rewrite Nat.add_1_r, app_nil_r.
  - destruct s as [|y s]; [done|]. destruct (p y) eqn:Hy; [|done].
    exists [y], s, []. simpl. rewrite Nat.add_1_r, app_nil_r. eauto 10.
  - apply star_sound in Hrun as (w & s' & -> & Hw & Hk).
    exists w, s', []. by rewrite app_nil_r.
  - destruct s as [|y s]; [done|]. destruct (p y) eqn:Hy; [|done].
    apply star_sound in Hrun as (w & s' & -> & Hw & Hk).
    exists (y :: w), s', []. rewrite app_nil_r. simpl.
    rewrite Nat.add_succ_r. split; [done|]. split; [|done].
    split_and!; [done | by constructor | done].
  - apply IH1 in Hrun as (w1 & s1 & g1 & -> & Hd1 & Hk1).
    apply IH2 in Hk1 as (w2 & s2 & g2 & -> & Hd2 & Hk2).
    exists (w1 ++ w2), s2, (g1 ++ g2).
    rewrite length_app, Nat.add_assoc, !(assoc_L (++)).
    split_and!; [done | | done]. by exists w1, w2, g1, g2.
  - apply IH1 in Hrun as (w & s' & g & -> & Hd & Hk).
    exists w, s', (g ++ [w]). split_and!; [done | by exists g |].
    replace (pos + length w - pos)%nat with (length w) in Hk by lia.
    rewrite take_app_length in Hk. by rewrite (assoc_L (++)).
  - destruct pos; [|done].
    exists [], s, []. by rewrite app_nil_r.
Qed.

Lemma match_at_sound r pos s m :
  match_at r pos s = Some m →
  ∃ w s', s = w ++ s' ∧ denote r w (m_groups m)
          ∧ m_end m = (pos + length w)%nat.
Proof.
  unfold match_at. intros Hm.
  apply run_sound in Hm as (w & s' & gs & -> & Hd & Heq).
  injection Heq as <-. by exists w, s'.
Qed.

Lemma search_from_sound r s : ∀ pos m,
  search_from r pos s = Some m → ∃ w, denote r w (m_groups m).
Proof.
  induction s as [|c s IH]; intros pos m Hs; simpl in Hs.
  - destruct (match_at r pos []) as [m'|] eqn:Hm; [|done].
    injection Hs as ->. apply match_at_sound in Hm as (w & _ & _ & Hd & _).
    by exists w.
  - destruct (match_at r pos (c :: s)) as [m'|] eqn:Hm.
    + injection Hs as ->. apply match_at_sound in Hm as (w & _ & _ & Hd & _).
      by exists w.
    + by apply IH in Hs.
Qed.

Lemma denote_Str l w gs : denote (Str l) w gs → w = l ∧ gs = [].
Proof.
  revert w gs. induction l as [|c l IH]; intros w gs Hd; simpl in Hd; [done|].
  destruct Hd as (w1 & w2 & g1 & g2 & -> & -> & [-> ->] & Hd2).
  by apply IH in Hd2 as [-> ->].
Qed.

Lemma denote_Rep n p w gs :
  denote (Rep n p) w gs →
  length w = n ∧ Forall (λ c, p c = true) w ∧ gs = [].
Proof.
  revert w gs. induction n as [|n IH]; intros w gs Hd; simpl in Hd.
  - by destruct Hd as [-> ->].
  - destruct Hd as (w1 & w2 & g1 & g2 & -> & -> & [(x & -> & Hx) ->] & Hd2).
    apply IH in Hd2 as (<- & Hw & ->). split_and!; [done | by constructor | done].
Qed.

(** *** Substitution *)

Lemma star_total {T} p s : ∀ pos (k : nat → str → option T),
  (∀ pos' s', is_Some (k pos' s')) → is_Some (star p pos s k).
Proof.
  induction s as [|c s IH]; intros pos k Hk; simpl; [done|].
  destruct (p c); [|done].
  destruct (IH (S pos) k Hk) as [x ->]. by eexists.
Qed.

Lemma match_at_Plus_none p pos s :
  match_at (Plus p) pos s = None →
  match s with [] => True | c :: _ => p c = false end.
Proof.
  unfold match_at. destruct s as [|c s]; [done|]. simpl.
  destruct (p c); [|done]. intros Hn.
  destruct (star_total p s (S pos)
              (λ pos' _, Some {| m_end := pos'; m_groups := [] |})) as [x Hx];
    [by eexists|]. simpl in *. congruence.
Qed.

Lemma match_at_Plus_some p pos s m :
  match_at (Plus p) pos s = Some m → (pos < m_end m)%nat.
Proof.
  intros (w & s' & -> & (Hne & _ & _) & ->)%match_at_sound.
  destruct w; [done|]. simpl. lia.
Qed.


Lemma Forall_sub_go (P : Z → Prop) r repl s : ∀ pos skip,
  Forall P s → Forall P repl → Forall P (sub_go r repl pos skip s).
Proof.
  induction s as [|c s IH]; intros pos skip Hs Hrepl.
  - destruct skip; [|done]. simpl. by destruct (match_at r pos []).
  - apply Forall_cons in Hs as [Hc Hs].
    destruct skip as [|k]; [|by apply IH]. simpl.
    destruct (match_at r pos (c :: s)) as [m|].
    + destruct (m_end m =? pos)%nat.
      * apply Forall_app. split; [done|]. constructor; [done | by apply IH].
      * apply Forall_app. split; [done | by apply IH].
    + constructor; [done | by apply IH].
Qed.

(** After [\s+] is replaced by a space, every space is that one. *)
Lemma sub_espacios_solo32 p s : ∀ pos skip,
  Forall (λ c, p c = true → c = 32) (sub_go (Plus p) [32] pos skip s).
Proof.
  induction s as [|c s IH]; intros pos skip.
  - destruct skip; [|done]. simpl. destruct (match_at (Plus p) pos []); [|done].
    by repeat constructor.
  - destruct skip as [|k]; [|by apply IH]. simpl.
    destruct (match_at (Plus p) pos (c :: s)) as [m|] eqn:Hm.
    + apply match_at_Plus_some in Hm.
      destruct (Nat.eqb_spec (m_end m) pos); [lia|].
      constructor; [done | apply IH].
    + apply match_at_Plus_none in Hm.
      constructor; [by rewrite Hm | apply IH].
Qed.



End ReSem.

(** * Facts about the string primitives *)
Module PyFacts.
Import Py.

Lemma eqz_true a b : eqz a b = true ↔ a = b.
Proof. unfold eqz. apply Z.eqb_eq. Qed.

Lemma eqz_refl a : eqz a a = true.
Proof. by apply eqz_true. Qed.

Lemma eqz_ne a b : a ≠ b → eqz a b = false.
Proof. unfold eqz. by intros ?%Z.eqb_neq. Qed.

Lemma starts_with_app p r : starts_with p (p ++ r) = true.
Proof. induction p as [|a p IH]; [by destruct r|]. simpl. by rewrite eqz_refl. Qed.

Lemma starts_with_prefix p s : starts_with p s = true ↔ ∃ r, s = p ++ r.
Proof.
  split.
  - revert s. induction p as [|a p IH]; intros s Hs; [by exists s|].
    destruct s as [|b s]; [done|]. simpl in Hs.
    apply andb_true_iff in Hs as [->%eqz_true Hs].
    apply IH in Hs as [r ->]. by exists r.
  - intros [r ->]. apply starts_with_app.
Qed.

(** [replace] steps over text that cannot begin a match. *)
Lemma replace_go_skip_text old new c0 a b :
  head old = Some c0 → c0 ∉ a →
  replace_go old new O (a ++ b) = a ++ replace_go old new O b.
Proof.
  intros Hold. induction a as [|c a IH]; intros Ha; [done|].
  apply not_elem_of_cons in Ha as [Hne Ha]. simpl.
  destruct old as [|o old]; [done|]. injection Hold as ->.
  simpl. rewrite eqz_ne by done. simpl. by rewrite IH.
Qed.

Lemma replace_go_skipping old new t rest :
  replace_go old new (length t) (t ++ rest) = replace_go old new O rest.
Proof. induction t as [|c t IH]; [done|]. simpl. exact IH. Qed.

(** [replace] rewrites a match that starts here. *)
Lemma replace_go_match old new rest :
  old ≠ [] →
  replace_go old new O (old ++ rest) = new ++ replace_go old new O rest.
Proof.
  destruct old as [|c old]; [done|]. intros _.
  change ((c :: old) ++ rest) with (c :: (old ++ rest)).
  cbn [replace_go]. change (c :: old ++ rest) with ((c :: old) ++ rest).
  rewrite starts_with_app.
  replace (length (c :: old) - 1)%nat with (length old) by (simpl; lia).
  by rewrite replace_go_skipping.
Qed.

Lemma replace_go_nil old new k : replace_go old new k [] = [].
Proof. by destruct k. Qed.

(** Replacing a single code point is a map. *)
Lemma replace_single e new s :
  replace s [e] new = flat_map (λ c, if eqz e c then new else [c]) s.
Proof.
  unfold replace. induction s as [|c s IH]; [done|]. simpl.
  destruct (eqz e c); simpl; by rewrite IH.
Qed.

Lemma replace_go_step old new c s :
  starts_with old (c :: s) = false →
  replace_go old new O (c :: s) = c :: replace_go old new O s.
Proof. intros Hs. cbn [replace_go]. by rewrite Hs. Qed.

Lemma Forall_replace_go (P : Z → Prop) old new s : ∀ k,
  Forall P s → Forall P new → Forall P (replace_go old new k s).
Proof.
  induction s as [|c s IH]; intros k Hs Hnew; [by destruct k|].
  apply Forall_cons in Hs as [Hc Hs]. simpl. destruct k; [|by apply IH].
  destruct (starts_with old (c :: s)).
  - apply Forall_app. split; [done | by apply IH].
  - constructor; [done | by apply IH].
Qed.

Lemma Forall_replace (P : Z → Prop) s old new :
  old ≠ [] → Forall P s → Forall P new → Forall P (replace s old new).
Proof. destruct old; [done|]. intros _. apply Forall_replace_go. Qed.

(** A pattern whose first underscore is followed by something else
    does not start a text whose first underscore is doubled. *)
Lemma starts_with_blocked u x v : ∀ a rest,
  95 ∉ u → x ≠ 95 → 95 ∉ a →
  (rest = [] ∨ ∃ r, rest = 95 :: 95 :: r) →
  starts_with (u ++ 95 :: x :: v) (a ++ rest) = false.
Proof.
  induction u as [|y u IH]; intros a rest Hu Hx Ha Hrest.
  - destruct a as [|c a].
    + destruct Hrest as [->|(r & ->)]; [done|].
      cbn [starts_with app]. by rewrite eqz_refl, (eqz_ne x 95).
    + apply not_elem_of_cons in Ha as [Hc _]. cbn [starts_with app]. by rewrite eqz_ne.
  - apply not_elem_of_cons in Hu as [Hy Hu]. destruct a as [|c a].
    + destruct Hrest as [->|(r & ->)]; [done|].
      cbn [starts_with app]. by rewrite (eqz_ne y 95).
    + apply not_elem_of_cons in Ha as [Hc Ha]. cbn [starts_with app].
      rewrite (IH a rest) by done. apply andb_false_r.
Qed.

Lemma split_go_concat s : ∀ word,
  concat (split_go word s) = word ++ filter (λ c, is_space c = false) s.
Proof.
  induction s as [|c s IH]; intros word; simpl.
  - destruct word; simpl; by rewrite ?app_nil_r.
  - rewrite filter_cons. destruct (is_space c) eqn:Hc.
    + destruct (decide (true = false)); [done|].
      destruct word; [apply IH|]. simpl. by rewrite IH.
    + destruct (decide (false = false)); [|done].
      by rewrite IH, <-(assoc_L (++)).
Qed.

Lemma elem_of_join x sep ws :
  x ∈ join sep ws → x ∈ sep ∨ x ∈ concat ws.
Proof.
  induction ws as [|w ws IH]; [by intros ?%elem_of_nil|].
  destruct ws as [|w' ws].
  - simpl. rewrite app_nil_r. auto.
  - change (join sep (w :: w' :: ws)) with (w ++ sep ++ join sep (w' :: ws)).
    rewrite !elem_of_app. change (concat (w :: w' :: ws)) with (w ++ concat (w' :: ws)).
    rewrite elem_of_app. intros [?|[?|?]]; [auto..|].
    destruct IH; auto.
Qed.

Lemma filter_join (P : Z → Prop) `{∀ c, Decision (P c)} sep ws :
  Forall (λ c, ¬ P c) sep → filter P (join sep ws) = filter P (concat ws).
Proof.
  intros Hsep. assert (filter P sep = []) as Hnil.
  { induction Hsep as [|c sep Hc _ IH]; [done|].
    rewrite filter_cons. by destruct (decide (P c)). }
  induction ws as [|w ws IH]; [done|]. destruct ws as [|w' ws].
  - simpl. by rewrite app_nil_r.
  - change (join sep (w :: w' :: ws)) with (w ++ sep ++ join sep (w' :: ws)).
    change (concat (w :: w' :: ws)) with (w ++ concat (w' :: ws)).
    by rewrite !filter_app, Hnil, IH.
Qed.

(** *** [find] and [replace] when there is no occurrence *)

Lemma find_from_ge sub s : ∀ i, 0 ≤ i → find_from sub s i = -1 ∨ i ≤ find_from sub s i.
Proof.
  induction s as [|c s IH]; intros i Hi; simpl.
  - destruct (starts_with sub []); lia.
  - destruct (starts_with sub (c :: s)); [lia|].
    destruct (IH (i + 1)) as [->|?]; lia.
Qed.

Lemma find_from_none sub s : ∀ i,
  0 ≤ i → find_from sub s i = -1 →
  ∀ k, starts_with sub (drop k s) = false.
Proof.
  induction s as [|c s IH]; intros i Hi Hf k; simpl in Hf.
  - rewrite drop_nil. destruct (starts_with sub []); [lia | done].
  - destruct (starts_with sub (c :: s)) eqn:Hs; [lia|].
    destruct k as [|k]; [done|]. simpl. apply (IH (i + 1)); [lia | done].
Qed.

Lemma contains_false sub s :
  contains sub s = false → ∀ k, starts_with sub (drop k s) = false.
Proof.
  unfold contains, find. intros Hc. apply (find_from_none _ _ 0); [lia|].
  apply negb_false_iff in Hc. by apply Z.eqb_eq in Hc.
Qed.

Lemma replace_go_absent old new s :
  (∀ k, starts_with old (drop k s) = false) → replace_go old new O s = s.
Proof.
  induction s as [|c s IH]; intros Hno; [done|].
  rewrite replace_go_step by apply (Hno O).
  rewrite IH; [done|]. intros k. apply (Hno (S k)).
Qed.

Lemma replace_absent s old new :
  old ≠ [] → contains old s = false → replace s old new = s.
Proof.
  destruct old as [|o old]; [done|]. intros _ Hc.
  apply replace_go_absent. by apply contains_false.
Qed.

(** *** Words and single spaces *)

Definition palabra (w : str) : Prop :=
  w ≠ [] ∧ Forall (λ c, is_space c = false) w.

Lemma split_go_palabras s : ∀ word,
  Forall (λ c, is_space c = false) word →
  Forall palabra (split_go word s).
Proof.
  induction s as [|c s IH]; intros word Hw; simpl.
  - destruct word; [constructor|]. constructor; [by split | constructor].
  - destruct (is_space c) eqn:Hc.
    + destruct word; [by apply IH|].
      constructor; [by split | by apply IH].
    + apply IH. apply Forall_app. split; [done|]. by constructor.
Qed.

Lemma split_palabras s : Forall palabra (split s).
Proof. by apply split_go_palabras. Qed.

Lemma split_go_word w s : ∀ word,
  Forall (λ c, is_space c = false) w →
  split_go word (w ++ s) = split_go (word ++ w) s.
Proof.
  induction w as [|c w IH]; intros word Hw; [by rewrite app_nil_r|].
  apply Forall_cons in Hw as [Hc Hw]. simpl. rewrite Hc.
  by rewrite IH, <-(assoc_L (++)).
Qed.

Lemma split_go_join ws : ∀ word,
  Forall palabra ws → word ≠ [] →
  Forall (λ c, is_space c = false) word →
  split_go [] (word ++ match ws with [] => [] | _ => 32 :: join [32] ws end)
  = word :: ws.
Proof.
  induction ws as [|w ws IH]; intros word Hws Hne Hword.
  - rewrite app_nil_r. rewrite <-(app_nil_r word) at 1.
    rewrite split_go_word by done. simpl. by destruct word.
  - apply Forall_cons in Hws as [[Hwne Hw] Hws].
    rewrite split_go_word by done. cbn [app split_go].
    change (is_space 32) with true. cbv iota.
    destruct word as [|c word]; [done|]. f_equal.
    specialize (IH w Hws Hwne Hw).
    destruct ws as [|w' ws]; simpl in *; [by rewrite app_nil_r in IH|].
    exact IH.
Qed.

Lemma split_join ws : Forall palabra ws → split (join [32] ws) = ws.
Proof.
  destruct ws as [|w ws]; [done|]. intros [[Hne Hw] Hws]%Forall_cons.
  pose proof (split_go_join ws w Hws Hne Hw) as Hs.
  unfold split. destruct ws as [|w' ws]; simpl in *; [by rewrite app_nil_r in Hs|].
  exact Hs.
Qed.

Lemma join_split_join ws :
  Forall palabra ws → join [32] (split (join [32] ws)) = join [32] ws.
Proof. intros Hws. by rewrite split_join. Qed.

(** *** Stripping both ends *)

Lemma lstrip_by_app p a b :
  lstrip_by p (a ++ b)
  = match lstrip_by p a with [] => lstrip_by p b | r => r ++ b end.
Proof.
  induction a as [|c a IH]; [done|]. simpl. destruct (p c); [exact IH | done].
Qed.

Lemma rstrip_by_app p a b :
  rstrip_by p (a ++ b)
  = match rstrip_by p b with [] => rstrip_by p a | r => a ++ r end.
Proof.
  induction a as [|c a IH]; simpl.
  - by destruct (rstrip_by p b).
  - rewrite IH. destruct (rstrip_by p b) as [|x r] eqn:Hb; [done|].
    by destruct a.
Qed.

Lemma rstrip_by_cons p c s :
  rstrip_by p (c :: s)
  = match rstrip_by p s with [] => if p c then [] else [c] | r => c :: r end.
Proof. reflexivity. Qed.

Lemma rstrip_by_idem p s : rstrip_by p (rstrip_by p s) = rstrip_by p s.
Proof.
  induction s as [|c s IH]; [done|]. simpl.
  destruct (rstrip_by p s) as [|x r] eqn:Hr.
  - destruct (p c) eqn:Hc; [done|]. simpl. by rewrite Hc.
  - by rewrite rstrip_by_cons, IH.
Qed.

Lemma lstrip_rstrip_head p c s :
  p c = false →
  lstrip_by p (rstrip_by p (c :: s)) = rstrip_by p (c :: s).
Proof.
  intros Hc. rewrite rstrip_by_cons.
  destruct (rstrip_by p s); rewrite ?Hc; simpl; by rewrite Hc.
Qed.

Lemma lstrip_by_head p s :
  lstrip_by p s = [] ∨ ∃ c r, lstrip_by p s = c :: r ∧ p c = false.
Proof.
  induction s as [|c s IH]; [by left|]. simpl.
  destruct (p c) eqn:Hc; [done|]. right. by exists c, s.
Qed.

Lemma strip_by_idem p s : strip_by p (strip_by p s) = strip_by p s.
Proof.
  unfold strip_by.
  destruct (lstrip_by_head p s) as [->|(c & r & -> & Hc)]; [done|].
  rewrite lstrip_rstrip_head by done. apply rstrip_by_idem.
Qed.

Lemma Forall_lstrip_by (P : Z → Prop) p s :
  Forall P s → Forall P (lstrip_by p s).
Proof.
  induction 1 as [|c s Hc Hs IH]; [done|]. simpl.
  destruct (p c); [done | by constructor].
Qed.

Lemma Forall_rstrip_by (P : Z → Prop) p s :
  Forall P s → Forall P (rstrip_by p s).
Proof.
  induction 1 as [|c s Hc Hs IH]; [done|]. simpl.
  destruct (rstrip_by p s); [|by constructor].
  destruct (p c); by repeat constructor.
Qed.

Lemma Forall_strip_by (P : Z → Prop) p s :
  Forall P s → Forall P (strip_by p s).
Proof. intros Hs. by apply Forall_rstrip_by, Forall_lstrip_by. Qed.

(** Stripping a single-spaced text with a set that holds the space
    leaves a single-spaced text. *)
Lemma lstrip_by_join p ws :
  p 32 = true → Forall palabra ws →
  ∃ ws', Forall palabra ws' ∧ lstrip_by p (join [32] ws) = join [32] ws'.
Proof.
  intros Hp. induction ws as [|w ws IH]; intros Hws; [by exists []|].
  apply Forall_cons in Hws as [[Hne Hw] Hws].
  destruct (IH Hws) as (ws1 & Hws1 & Heq).
  assert (Forall (λ c, is_space c = false) (lstrip_by p w)) as Hlw
    by (by apply Forall_lstrip_by).
  destruct ws as [|w' ws].
  - simpl. destruct (lstrip_by p w) as [|x r] eqn:Hl; [by exists []|].
    exists [x :: r]. split; [|done]. constructor; [by split | constructor].
  - change (join [32] (w :: w' :: ws)) with (w ++ [32] ++ join [32] (w' :: ws)).
    rewrite lstrip_by_app. destruct (lstrip_by p w) as [|x r] eqn:Hl.
    + cbn [app lstrip_by]. rewrite Hp. by exists ws1.
    + exists ((x :: r) :: w' :: ws). split; [|done].
      constructor; [by split | done].
Qed.

Lemma rstrip_by_join p ws :
  p 32 = true → Forall palabra ws →
  ∃ ws', Forall palabra ws' ∧ rstrip_by p (join [32] ws) = join [32] ws'.
Proof.
  intros Hp. induction ws as [|w ws IH]; intros Hws; [by exists []|].
  apply Forall_cons in Hws as [[Hne Hw] Hws].
  destruct (IH Hws) as (ws1 & Hws1 & Heq).
  assert (Forall (λ c, is_space c = false) (rstrip_by p w)) as Hrw
    by (by apply Forall_rstrip_by).
  destruct ws as [|w' ws].
  - simpl. destruct (rstrip_by p w) as [|x r] eqn:Hr; [by exists []|].
    exists [x :: r]. split; [|done]. constructor; [by split | constructor].
  - change (join [32] (w :: w' :: ws)) with (w ++ [32] ++ join [32] (w' :: ws)).
    rewrite rstrip_by_app, rstrip_by_app, Heq.
    destruct ws1 as [|w1 ws1].
    + simpl. rewrite Hp.
      destruct (rstrip_by p w) as [|x r] eqn:Hr; [by exists []|].
      exists [x :: r]. split; [|done]. constructor; [by split | constructor].
    + assert (join [32] (w1 :: ws1) ≠ []) as Hj.
      { apply Forall_cons in Hws1 as [[Hne1 _] _].
        destruct w1; [done|]. by destruct ws1. }
      destruct (join [32] (w1 :: ws1)) as [|y j] eqn:Hjoin; [done|].
      cbn [app]. exists (w :: w1 :: ws1). split.
      * constructor; [by split | done].
      * change (join [32] (w :: w1 :: ws1))
          with (w ++ [32] ++ join [32] (w1 :: ws1)).
        by rewrite Hjoin.
Qed.

Lemma strip_by_join p ws :
  p 32 = true → Forall palabra ws →
  ∃ ws', Forall palabra ws' ∧ strip_by p (join [32] ws) = join [32] ws'.
Proof.
  intros Hp Hws. unfold strip_by.
  destruct (lstrip_by_join p ws Hp Hws) as (ws1 & Hws1 & ->).
  by apply rstrip_by_join.
Qed.

Lemma Forall_split_go (P : Z → Prop) s : ∀ word,
  Forall P word → Forall P s → Forall (Forall P) (split_go word s).
Proof.
  induction s as [|c s IH]; intros word Hw Hs; simpl.
  - destruct word; [constructor|]. constructor; [done | constructor].
  - apply Forall_cons in Hs as [Hc Hs]. destruct (is_space c).
    + destruct word; [by apply IH|]. constructor; [done | by apply IH].
    + apply IH; [|done]. apply Forall_app. split; [done | by constructor].
Qed.

Lemma Forall_join (P : Z → Prop) sep ws :
  Forall P sep → Forall (Forall P) ws → Forall P (join sep ws).
Proof.
  intros Hsep. induction 1 as [|w ws Hw Hws IH]; [constructor|].
  destruct ws as [|w' ws]; [done|].
  change (join sep (w :: w' :: ws)) with (w ++ sep ++ join sep (w' :: ws)).
  rewrite !Forall_app. done.
Qed.


Lemma length_lstrip_by p s : (length (lstrip_by p s) ≤ length s)%nat.
Proof.
  induction s as [|c s IH]; [done|]. simpl. destruct (p c); simpl; lia.
Qed.

(** What a larger set leaves alone, a smaller one leaves alone. *)
Lemma lstrip_by_sub (p q : Z → bool) s :
  Forall (λ c, q c = true → p c = true) s →
  lstrip_by p s = s → lstrip_by q s = s.
Proof.
  destruct s as [|c s]; [done|]. intros [Hc _]%Forall_cons. simpl.
  destruct (p c) eqn:Hp.
  - intros Heq. pose proof (length_lstrip_by p s) as Hlen.
    rewrite Heq in Hlen. simpl in Hlen. lia.
  - intros _. destruct (q c); [by specialize (Hc eq_refl) | done].
Qed.

Lemma rstrip_by_sub (p q : Z → bool) s :
  Forall (λ c, q c = true → p c = true) s →
  rstrip_by p s = s → rstrip_by q s = s.
Proof.
  induction s as [|c s IH]; [done|]. intros [Hc Hs]%Forall_cons.
  rewrite !rstrip_by_cons. destruct (rstrip_by p s) as [|x r] eqn:Hr.
  - destruct (p c) eqn:Hp; [done|]. intros [= <-]. simpl.
    destruct (q c); [by specialize (Hc eq_refl) | done].
  - intros [= Heq]. rewrite IH by done. by rewrite <-Heq.
Qed.

Lemma strip_by_fixed p s z :
  s = strip_by p z → lstrip_by p s = s ∧ rstrip_by p s = s.
Proof.
  intros ->. unfold strip_by. split; [|apply rstrip_by_idem].
  destruct (lstrip_by_head p z) as [->|(c & r & -> & Hc)]; [done|].
  by apply lstrip_rstrip_head.
Qed.

(** *** Occurrences *)

(** [sub] occurs in [s]. *)
Definition subcadena (sub s : str) : Prop := ∃ pre post, s = pre ++ sub ++ post.

Lemma find_from_found sub s : ∀ i,
  0 ≤ i → find_from sub s i ≠ -1 →
  ∃ pre post, s = pre ++ sub ++ post
              ∧ find_from sub s i = i + Z.of_nat (length pre).
Proof.
  induction s as [|c s IH]; intros i Hi Hf; simpl in *.
  - destruct (starts_with sub []) eqn:Hs; [|done].
    apply starts_with_prefix in Hs as [r Hr]. exists [], r.
    split; [done | simpl; lia].
  - destruct (starts_with sub (c :: s)) eqn:Hs.
    + apply starts_with_prefix in Hs as [r Hr]. exists [], r.
      split; [done | simpl; lia].
    + destruct (IH (i + 1)) as (pre & post & -> & Heq); [lia | done |].
      exists (c :: pre), post. split; [done|]. rewrite Heq. simpl length. lia.
Qed.

Lemma find_from_unfold sub s i :
  find_from sub s i
  = if starts_with sub s then i
    else match s with [] => -1 | _ :: s' => find_from sub s' (i + 1) end.
Proof. by destruct s. Qed.

(** [find] returns the first occurrence. *)
Lemma find_from_first sub pre post : ∀ i,
  0 ≤ i →
  find_from sub (pre ++ sub ++ post) i ≠ -1
  ∧ find_from sub (pre ++ sub ++ post) i ≤ i + Z.of_nat (length pre).
Proof.
  induction pre as [|c pre IH]; intros i Hi.
  - rewrite find_from_unfold. simpl app. rewrite starts_with_app. simpl. lia.
  - rewrite find_from_unfold.
    destruct (starts_with sub ((c :: pre) ++ sub ++ post)); [simpl; lia|].
    simpl app. destruct (IH (i + 1)) as [Hne Hle]; [lia|]. split; [done|].
    simpl length. lia.
Qed.

Lemma contains_subcadena sub s : contains sub s = true ↔ subcadena sub s.
Proof.
  unfold contains, find. rewrite negb_true_iff, Z.eqb_neq. split.
  - intros Hf. destruct (find_from_found sub s 0) as (pre & post & -> & _);
      [lia | done |]. by exists pre, post.
  - intros (pre & post & ->). by apply find_from_first.
Qed.

Lemma lstrip_by_suffix p s : ∃ a, s = a ++ lstrip_by p s.
Proof.
  induction s as [|c s [a IH]]; [by exists []|]. simpl.
  destruct (p c); [|by exists []]. exists (c :: a). simpl. by rewrite <-IH.
Qed.

Lemma rstrip_by_prefix p s : ∃ b, s = rstrip_by p s ++ b.
Proof.
  induction s as [|c s [b IH]]; [by exists []|]. rewrite rstrip_by_cons.
  destruct (rstrip_by p s) as [|x r].
  - destruct (p c); [by exists (c :: s)|]. exists s. done.
  - exists b. simpl. by rewrite IH at 1.
Qed.

Lemma subcadena_strip_by sub p s :
  subcadena sub (strip_by p s) → subcadena sub s.
Proof.
  unfold strip_by. intros (pre & post & Heq).
  destruct (lstrip_by_suffix p s) as [a Ha].
  destruct (rstrip_by_prefix p (lstrip_by p s)) as [b Hb].
  exists (a ++ pre), (post ++ b).
  rewrite Ha at 1. rewrite Hb at 1. rewrite Heq.
  by rewrite <-!(assoc_L (++)).
Qed.

End PyFacts.

(** * Properties *)




(** A Feature that carries one of the three statuses, with a geometry
    exactly when the status is [OK]. *)
Definition estado_ok (f : feature) : Prop :=
  ∃ s, status_of f = Some s
       ∧ (s = OK ∨ s = SIN_MATCH ∨ s = SIN_DIRECCION)
       ∧ (is_Some (geometry f) ↔ s = OK).

Section V1Facts.
Context `{Unicodedata}.



Lemma lookup_hit geocode st q v :
  V1.cache st !! q = Some v → V1.lookup geocode st q = (v, st).
Proof. unfold V1.lookup. by intros ->. Qed.

Lemma lookup_miss_stored geocode st q :
  V1.cache st !! q = None →
  is_Some (V1.cache (V1.lookup geocode st q).2 !! q)
  ∧ V1.calls (V1.lookup geocode st q).2 = V1.calls st ++ [q].
Proof.
  unfold V1.lookup. intros ->. simpl. split; [|done].
  rewrite lookup_insert_eq. by eexists.
Qed.


(** What one record adds to the calls: nothing, or its one query. *)
Lemma lookup_calls geocode st q :
  ∃ extra, V1.calls (V1.lookup geocode st q).2 = V1.calls st ++ extra
           ∧ (extra = [] ∨ extra = [q]).
Proof.
  unfold V1.lookup. destruct (V1.cache st !! q).
  - exists []. by rewrite app_nil_r; auto.
  - exists [q]. auto.
Qed.

Lemma paso_calls geocode st feat :
  ∃ extra,
    V1.calls (V1.paso geocode st feat).1 = V1.calls st ++ extra
    ∧ (extra = []
       ∨ ∃ q, extra = [q]
              ∧ V1.build_query (default ∅ (properties feat)) = Some q).
Proof.
  unfold V1.paso.
  destruct (V1.build_query (default ∅ (properties feat))) as [q|] eqn:Hq;
    simpl.
  2: { exists []. by rewrite app_nil_r; auto. }
  destruct (truthy q); simpl.
  2: { exists []. by rewrite app_nil_r; auto. }
  destruct (lookup_calls geocode st q) as (extra & Hc & Hex).
  destruct (V1.lookup geocode st q) as [loc st'] eqn:Hl. simpl in Hc.
  exists extra. split.
  - by destruct loc.
  - destruct Hex as [->| ->]; [by left | right; by exists q].
Qed.



Lemma bucle_calls_length geocode features st :
  (length (V1.calls (V1.bucle geocode st features).1)
   ≤ length (V1.calls st) + length features)%nat.
Proof.
  revert st. induction features as [|feat rest IH]; intros st; simpl; [lia|].
  destruct (paso_calls geocode st feat) as (extra & Hc & Hex).
  destruct (V1.paso geocode st feat) as [st1 feat']. simpl in Hc.
  specialize (IH st1).
  destruct (V1.bucle geocode st1 rest) as [st2 rest']. simpl in *.
  rewrite Hc, length_app in IH.
  destruct Hex as [->|(q & -> & _)]; simpl in IH; lia.
Qed.

Lemma paso_estado geocode st feat :
  is_Some (properties feat) → estado_ok (V1.paso geocode st feat).2.
Proof.
  intros [props Hp]. unfold V1.paso. rewrite Hp. simpl.
  destruct (negb _).
  - exists SIN_DIRECCION. unfold status_of. simpl.
    rewrite lookup_insert_eq. split_and!; [done | auto |].
    split; [by intros [? ?] | discriminate].
  - destruct (V1.lookup _ _ _) as [[loc|] st'].
    + exists OK. unfold status_of. simpl.
      rewrite lookup_insert_ne by done. rewrite lookup_insert_eq.
      split_and!; [done | auto |]. split; [done | by eexists].
    + exists SIN_MATCH. unfold status_of. simpl.
      rewrite lookup_insert_ne by done. rewrite lookup_insert_eq.
      split_and!; [done | auto |].
      split; [by intros [? ?] | discriminate].
Qed.


(** A Feature that has no [properties] member leaves the loop without
    a status: the default dictionary is not stored in it. *)
Lemma paso_sin_properties geocode st g :
  V1.paso geocode st {| properties := None; geometry := g |}
  = ({| V1.cache := V1.cache st; V1.ok := V1.ok st;
        V1.fail := S (V1.fail st); V1.calls := V1.calls st |},
     {| properties := None; geometry := None |}).
Proof. reflexivity. Qed.

(** A record whose three address fields are empty or missing: no
    query, status SIN_DIRECCION, no geometry, no call. *)
Lemma paso_sin_direccion geocode st props g :
  get_or_empty props "DOMICILIO_CORTO" = [] →
  get_or_empty props "DOMICILIO_LIMPIO" = [] →
  get_or_empty props "DOMICILIO" = [] →
  let r := V1.paso geocode st {| properties := Some props; geometry := g |} in
  status_of r.2 = Some SIN_DIRECCION
  ∧ geometry r.2 = None
  ∧ V1.calls r.1 = V1.calls st.
Proof.
  intros H1 H2 H3. unfold V1.paso, V1.build_query. simpl.
  rewrite H1, H2, H3. simpl. unfold status_of. simpl.
  by rewrite lookup_insert_eq.
Qed.

End V1Facts.

Section V2Facts.
Context `{Unicodedata}.

(** The two shapes the variables of a record's loop can have. *)
Definition intento_ok (r : V2.intento) : Prop :=
  (V2.geocod_status r = OK ∧ is_Some (V2.i_geometry r))
  ∨ (V2.geocod_status r = SIN_MATCH ∧ V2.i_geometry r = None).

Lemma probar_intento geocode queries st r :
  intento_ok r → intento_ok (V2.probar geocode st r queries).2.
Proof.
  revert st r. induction queries as [|q rest IH]; intros st r Hr; [done|].
  simpl. destruct (falsy q); [by apply IH|].
  destruct (geocode _ q) as [loc| |].
  - left. simpl. split; [done | by eexists].
  - apply IH. destruct Hr as [[? ?]|[? ?]]; [by left | by right].
  - by apply IH.
Qed.



(** The tiered pipeline never reports SIN_DIRECCION. *)
Lemma paso_v2_nunca_sin_direccion mapa_muni geocode st row :
  status_of (V2.paso mapa_muni geocode st row).2 ≠ Some SIN_DIRECCION.
Proof.
  unfold V2.paso.
  set (r0 := {| V2.i_geometry := None; V2.geocod_status := SIN_MATCH;
                V2.geocod_query := [] |}).
  set (qs := V2Text.armar_queries_geocod _ _ _).
  assert (intento_ok r0) as Hr0 by (by right).
  pose proof (probar_intento geocode qs st r0 Hr0) as Hr.
  destruct (V2.probar geocode st r0 qs) as [st' r]. simpl in *.
  unfold status_of. simpl.
  rewrite lookup_insert_ne by done. rewrite lookup_insert_eq.
  destruct Hr as [[-> _]|[-> _]]; discriminate.
Qed.

(** When every call raises, the loop leaves its three variables as
    they were: the query that failed is not recorded. *)
Lemma probar_raised geocode queries st r :
  (∀ n q, geocode n q = Raised) →
  (V2.probar geocode st r queries).2 = r.
Proof.
  intros Hg. revert st. induction queries as [|q rest IH]; intros st; [done|].
  simpl. destruct (falsy q); [apply IH|]. rewrite Hg. apply IH.
Qed.

Lemma paso_raised mapa_muni geocode st row :
  (∀ n q, geocode n q = Raised) →
  let f := (V2.paso mapa_muni geocode st row).2 in
  status_of f = Some SIN_MATCH ∧ geometry f = None ∧ query_of f = Some [].
Proof.
  intros Hg. unfold V2.paso.
  set (r0 := {| V2.i_geometry := None; V2.geocod_status := SIN_MATCH;
                V2.geocod_query := [] |}).
  set (qs := V2Text.armar_queries_geocod _ _ _).
  pose proof (probar_raised geocode qs st r0 Hg) as Hr.
  destruct (V2.probar geocode st r0 qs) as [st' r]. simpl in *. subst r.
  unfold status_of, query_of. simpl.
  rewrite lookup_insert_eq.
  rewrite lookup_insert_ne by done. by rewrite lookup_insert_eq.
Qed.

End V2Facts.

(** ** The cache (claims C1, C10) *)

Definition casilla_ejemplo : feature :=
  {| properties := Some {[ "DOMICILIO"%string := lit "CALLE HIDALGO 12" ]};
     geometry := None |}.

Definition consulta_ejemplo : str :=
  lit "CALLE HIDALGO 12, Guanajuato, M" ++ [233] ++ lit "xico".


(** C10: in the first pipeline a record sends at most one query to the
    service, the one [build_query] returned for it; a run of n records
    makes at most n calls. *)
Theorem v1_one_lookup_per_record `{Unicodedata}
    (geocode : geocoder) (st : V1.state) (feat : feature)
    (features : list feature) :
  (∃ extra,
      V1.calls (V1.paso geocode st feat).1 = V1.calls st ++ extra
      ∧ (length extra ≤ 1)%nat
      ∧ ∀ q, q ∈ extra →
             V1.build_query (default ∅ (properties feat)) = Some q)
  ∧ (length (V1.calls (V1.main geocode features).1) ≤ length features)%nat.
Proof.
  split.
  - destruct (paso_calls geocode st feat) as (extra & Hc & Hex).
    exists extra. split; [done|].
    destruct Hex as [->|(q & -> & Hq)].
    + split; [simpl; lia|]. intros q Hq. by apply elem_of_nil in Hq.
    + split; [simpl; lia|]. intros q' Hq'.
      by apply list_elem_of_singleton in Hq' as ->.
  - apply (bucle_calls_length geocode features V1.inicio).
Qed.

Lemma v1_one_lookup_per_record_witness :
  V1.calls (@V1.paso Latin1.table (λ _ _, NoMatch) V1.inicio casilla_ejemplo).1
  = [consulta_ejemplo]
  ∧ @V1.build_query Latin1.table (default ∅ (properties casilla_ejemplo))
    = Some consulta_ejemplo
  ∧ (length (V1.calls (@V1.main Latin1.table (λ _ _, NoMatch)
                         [casilla_ejemplo; casilla_ejemplo]).1) ≤ 2)%nat.
Proof.
  destruct (@v1_one_lookup_per_record Latin1.table (λ _ _, NoMatch) V1.inicio
              casilla_ejemplo [casilla_ejemplo; casilla_ejemplo])
    as [(extra & Hc & _ & Hq) Hn].
  assert (V1.calls (@V1.paso Latin1.table (λ _ _, NoMatch) V1.inicio
                      casilla_ejemplo).1 = [consulta_ejemplo]) as Hcalls
    by (vm_compute; reflexivity).
  split; [exact Hcalls|]. split; [|exact Hn].
  apply Hq. rewrite Hcalls in Hc. simpl in Hc. rewrite <-Hc.
  apply list_elem_of_here.
Defined.

(** ** Status of the output (claims C2, C4, C5) *)





Definition centro_estado : location := {| longitude := -101; latitude := 21 |}.

(** C4 at a record with no address and no locality, in the tiered
    pipeline: the service is called with the state-level query, and the
    record comes out as OK with the coordinates of that answer, not as
    SIN_DIRECCION. *)
Theorem v2_looks_up_empty_record :
  let r := @V2.main Latin1.table [] [∅] (λ _ _, Found centro_estado) in
  V2.calls r.1 = [lit "Guanajuato, Mexico"]
  ∧ status_of <$> r.2 = [Some OK]
  ∧ geometry <$> r.2 = [Some (punto centro_estado)].
Proof. vm_compute. repeat split. Qed.

Definition fila_hidalgo : gmap string str :=
  {[ "SECCION"%string := lit "1480"; "CASILLA"%string := lit "B";
     "LOCALIDAD"%string := lit "CENTRO";
     "DOMICILIO"%string := lit "CALLE HIDALGO 12" ]}.

Definition fila_municipio : gmap string str :=
  {[ "SECCION"%string := lit "1480"; "MUNICIPIO"%string := lit "LEON" ]}.

(** C5 at a record all of whose lookups raise, in the tiered pipeline:
    four candidates are tried, the last being "Guanajuato, Mexico"; the
    status is SIN_MATCH and the geometry null, but the recorded query is
    the empty string. *)
Theorem v2_raised_query_not_recorded :
  let r := @V2.main Latin1.table [fila_municipio] [fila_hidalgo] (λ _ _, Raised) in
  last (V2.calls r.1) = Some (lit "Guanajuato, Mexico")
  ∧ length (V2.calls r.1) = 4%nat
  ∧ status_of <$> r.2 = [Some SIN_MATCH]
  ∧ geometry <$> r.2 = [None]
  ∧ query_of <$> r.2 = [Some []].
Proof. vm_compute. repeat split. Qed.

(** ** The extractor (claim C9) *)

Section Extractor.
Context `{Unicodedata}.

Lemma cp_mpio_groups w gs :
  ReSem.denote V1.re_cp_mpio w gs →
  ∃ cp nombre,
    gs = [cp; nombre]
    ∧ length cp = 5%nat ∧ Forall (λ c, is_decimal c = true) cp
    ∧ nombre ≠ [] ∧ Forall (λ c, V1.no_coma c = true) nombre.
Proof.
  unfold V1.re_cp_mpio. cbn [ReSem.denote]. intros Hd.
  destruct Hd as (? & ? & ? & ? & _ & -> & [_ ->] & Hd).
  destruct Hd as (? & ? & ? & ? & _ & -> & [_ ->] & Hd).
  destruct Hd as (? & ? & ? & ? & _ & -> & (g & Hcp & ->) & Hd).
  apply (ReSem.denote_Rep 5) in Hcp as (Hlen & Hdig & ->).
  destruct Hd as (? & ? & ? & ? & _ & -> & [_ ->] & Hd).
  destruct Hd as (? & ? & ? & ? & _ & -> & [_ ->] & Hd).
  destruct Hd as (? & ? & ? & ? & _ & -> & (g & (Hne & Hnc & ->) & ->) & Hd).
  destruct Hd as (? & ? & ? & ? & _ & -> & [_ ->] & Hd).
  destruct Hd as (? & ? & ? & ? & _ & -> & [_ ->] & Hd).
  apply ReSem.denote_Str in Hd as [_ ->].
  simpl. eauto 10.
Qed.

End Extractor.

(** C9: the extractor returns both fields or neither.  When it returns
    them, the postal code is five decimal digits and the municipality is
    the title-cased form of a non-empty piece of text without commas. *)
Theorem extraer_cp_y_mpio_both_or_neither `{Unicodedata} (dom_full : str) :
  V1.extraer_cp_y_mpio dom_full = (None, None)
  ∨ ∃ cp nombre,
      V1.extraer_cp_y_mpio dom_full = (Some cp, Some (title nombre))
      ∧ length cp = 5%nat
      ∧ Forall (λ c, is_decimal c = true) cp
      ∧ nombre ≠ []
      ∧ 44 ∉ nombre.
Proof.
  unfold V1.extraer_cp_y_mpio.
  destruct (falsy dom_full); [by left|].
  destruct (Re.search V1.re_cp_mpio (Py.upper dom_full)) as [m|] eqn:Hm;
    [|by left].
  right. apply ReSem.search_from_sound in Hm as (w & Hd).
  apply cp_mpio_groups in Hd as (cp & nombre & Hg & Hlen & Hdig & Hne & Hnc).
  exists cp, nombre. unfold Re.group. rewrite Hg. simpl.
  split_and!; try done.
  intros Hin. rewrite Forall_forall in Hnc. by apply Hnc in Hin.
Qed.

(** ** The query builder (claim C3) *)

Lemma StronglySorted_weaken {A} (R R' : A → A → Prop) (l : list A) :
  (∀ a b, a ∈ l → b ∈ l → R a b → R' a b) →
  StronglySorted R l → StronglySorted R' l.
Proof.
  intros HR Hs. induction Hs as [|a l Hs IH Ha]; [constructor|].
  constructor.
  - apply IH. intros x y Hx Hy. apply HR; by right.
  - rewrite Forall_forall in Ha |- *. intros b Hb.
    apply HR; [by left | by right | by apply Ha].
Qed.

Lemma filter_all {A} (P : A → Prop) `{∀ x, Decision (P x)} (l : list A) :
  Forall P l → filter P l = l.
Proof.
  induction 1 as [|x l Hx _ IH]; [done|].
  rewrite filter_cons. destruct (decide (P x)); [by rewrite IH | done].
Qed.

(** Where [x] first occurs in [l]. *)
Fixpoint primero (x : str) (l : list str) : nat :=
  match l with
  | [] => O
  | y :: l' => if decide (y = x) then O else S (primero x l')
  end.

(** The level of [x] among candidates tagged with their level: the tag
    of the first one whose normal form is [x]. *)
Fixpoint nivel_en (f : str → str) (tl : list (nat * str)) (x : str) : nat :=
  match tl with
  | [] => O
  | (n, q) :: tl' => if decide (f q = x) then n else nivel_en f tl' x
  end.

Section Unicos.
Import V2Text.

Lemma en_visto (q : str) (seen : gset str) : q ∈ ({[q]} ∪ seen : gset str).
Proof. apply elem_of_union. left. by apply elem_of_singleton. Qed.

Lemma elem_of_unicos qs : ∀ seen x,
  x ∈ unicos seen qs ↔ x ∈ qs ∧ x ∉ seen.
Proof.
  induction qs as [|q rest IH]; intros seen x; simpl.
  - split; [by intros ?%elem_of_nil | by intros [?%elem_of_nil _]].
  - destruct (decide (q ∈ seen)) as [Hq|Hq].
    + rewrite IH, elem_of_cons. split.
      * intros [Hx Hs]. by split; [right|].
      * intros [[->|Hx] Hs]; [done | by split].
    + rewrite elem_of_cons, IH, elem_of_cons, not_elem_of_union,
        not_elem_of_singleton. split.
      * intros [->|(Hx & Hne & Hs)]; [by split; [left|] | by split; [right|]].
      * intros [[->|Hx] Hs]; [by left|].
        destruct (decide (x = q)) as [->|Hne]; [by left | by right].
Qed.

Lemma NoDup_unicos qs : ∀ seen, NoDup (unicos seen qs).
Proof.
  induction qs as [|q rest IH]; intros seen; simpl; [constructor|].
  destruct (decide (q ∈ seen)); [apply IH|].
  constructor; [|apply IH].
  intros [_ Hn]%elem_of_unicos. apply Hn, en_visto.
Qed.

Lemma unicos_sublist qs : ∀ seen, unicos seen qs `sublist_of` qs.
Proof.
  induction qs as [|q rest IH]; intros seen; simpl; [done|].
  destruct (decide (q ∈ seen)).
  - by apply sublist_cons.
  - by apply sublist_skip.
Qed.

Lemma unicos_primero qs : ∀ seen,
  StronglySorted (λ a b, (primero a qs < primero b qs)%nat) (unicos seen qs).
Proof.
  induction qs as [|q rest IH]; intros seen; simpl; [constructor|].
  assert (∀ seen', q ∈ seen' →
            StronglySorted
              (λ a b, ((if decide (q = a) then O else S (primero a rest))
                       < (if decide (q = b) then O else S (primero b rest)))%nat)
              (unicos seen' rest)) as Htail.
  { intros seen' Hq.
    apply (StronglySorted_weaken (λ a b, (primero a rest < primero b rest)%nat));
      [|apply IH].
    intros a b [_ Ha]%elem_of_unicos [_ Hb]%elem_of_unicos Hab.
    destruct (decide (q = a)) as [->|]; [done|].
    destruct (decide (q = b)) as [->|]; [done|]. lia. }
  destruct (decide (q ∈ seen)) as [Hq|Hq]; [by apply Htail|].
  constructor; [apply Htail, en_visto|].
  rewrite Forall_forall. intros b [_ Hb]%elem_of_unicos.
  destruct (decide (q = q)); [|done].
  destruct (decide (q = b)) as [->|]; [|lia].
  exfalso. apply Hb, en_visto.
Qed.

Lemma nivel_en_elem f tl x :
  x ∈ (f ∘ snd <$> tl) → nivel_en f tl x ∈ (fst <$> tl).
Proof.
  induction tl as [|[n q] tl IH]; simpl; [by intros ?%elem_of_nil|].
  intros Hx. destruct (decide (f q = x)) as [|Hne]; [by left|].
  right. apply IH. apply elem_of_cons in Hx as [->|Hx]; done.
Qed.

Lemma unicos_nivel f tl : ∀ seen,
  StronglySorted lt (fst <$> tl) →
  StronglySorted (λ a b, (nivel_en f tl a < nivel_en f tl b)%nat)
    (unicos seen (f ∘ snd <$> tl)).
Proof.
  induction tl as [|[n q] tl IH]; intros seen Hs; simpl; [constructor|].
  apply StronglySorted_inv in Hs as [Hs Hn]. simpl in Hn.
  assert (∀ seen', f q ∈ seen' →
            StronglySorted
              (λ a b, ((if decide (f q = a) then n else nivel_en f tl a)
                       < (if decide (f q = b) then n else nivel_en f tl b))%nat)
              (unicos seen' (f ∘ snd <$> tl))) as Htail.
  { intros seen' Hq.
    apply (StronglySorted_weaken
             (λ a b, (nivel_en f tl a < nivel_en f tl b)%nat)); [|by apply IH].
    intros a b [_ Ha]%elem_of_unicos [_ Hb]%elem_of_unicos Hab.
    destruct (decide (f q = a)) as [<-|]; [done|].
    destruct (decide (f q = b)) as [<-|]; done. }
  destruct (decide (f q ∈ seen)) as [Hq|Hq]; [by apply Htail|].
  constructor; [apply Htail, en_visto|].
  rewrite Forall_forall. intros b [Hb Hb']%elem_of_unicos.
  destruct (decide (f q = f q)); [|done].
  destruct (decide (f q = b)) as [<-|]; [exfalso; apply Hb', en_visto|].
  apply nivel_en_elem in Hb. rewrite Forall_forall in Hn. by apply Hn.
Qed.

End Unicos.

Section QueryBuilder.
Context `{Unicodedata}.
Import V2Text.

(** The candidates of [armar_queries_geocod] with the number of the
    level that appends each: 1 short address, 2 locality,
    3 municipality, 4 state and country. *)
Definition candidatos
    (domicilio_corto : str) (localidad municipio : option str)
  : list (nat * str) :=
  let loc := Py.strip (default [] localidad) in
  let muni := Py.strip (default [] municipio) in
  (pair 1%nat <$> bloque1 domicilio_corto muni)
    ++ (pair 2%nat <$> bloque2 loc muni)
    ++ (pair 3%nat <$> bloque3 muni)
    ++ [(4%nat, estado_pais)].

Definition nivel (domicilio_corto : str) (localidad municipio : option str)
    (x : str) : nat :=
  nivel_en strip_accents_keep_enie
    (candidatos domicilio_corto localidad municipio) x.

Lemma queries_norm_candidatos dc loc muni :
  queries_norm dc loc muni
  = (strip_accents_keep_enie ∘ snd <$> candidatos dc loc muni).
Proof.
  unfold queries_norm, candidatos.
  rewrite !fmap_app, <-!list_fmap_compose. reflexivity.
Qed.

Lemma candidatos_sorted dc loc muni :
  StronglySorted lt (fst <$> candidatos dc loc muni).
Proof.
  unfold candidatos, bloque1, bloque2, bloque3.
  repeat case_match; simpl; repeat constructor; lia.
Qed.

Lemma candidatos_niveles dc loc muni n :
  n ∈ (fst <$> candidatos dc loc muni) → (1 ≤ n ≤ 4)%nat.
Proof.
  unfold candidatos, bloque1, bloque2, bloque3.
  repeat case_match; simpl; intros Hn; set_unfold; lia.
Qed.

Lemma estado_pais_normal :
  nfd estado_pais = estado_pais →
  Forall (λ c, is_Mn c = false) estado_pais →
  strip_accents_keep_enie estado_pais = estado_pais.
Proof.
  intros Hnfd HMn. unfold strip_accents_keep_enie.
  change (falsy estado_pais) with false. cbv iota.
  change (Py.replace
            (Py.replace (Py.join (lit " ") (Py.split estado_pais))
               enie_min tok_min) enie_may tok_may) with estado_pais.
  rewrite Hnfd, filter_all by done. reflexivity.
Qed.

End QueryBuilder.

(** C3: the list [armar_queries_geocod] returns is not empty, has no
    duplicates, holds exactly the normalised candidates in the order of
    their first occurrence, is strictly increasing in level (short
    address, then locality, then municipality, then state and country),
    and contains the state-and-country query. *)
Theorem armar_queries_geocod_ranked `{Unicodedata}
    (domicilio_corto : str) (localidad municipio : option str) :
  nfd V2Text.estado_pais = V2Text.estado_pais →
  Forall (λ c, is_Mn c = false) V2Text.estado_pais →
  let r := V2Text.armar_queries_geocod domicilio_corto localidad municipio in
  let qn := V2Text.queries_norm domicilio_corto localidad municipio in
  r ≠ []
  ∧ NoDup r
  ∧ (∀ x, x ∈ r ↔ x ∈ qn)
  ∧ r `sublist_of` qn
  ∧ StronglySorted (λ a b, (primero a qn < primero b qn)%nat) r
  ∧ StronglySorted
      (λ a b, (nivel domicilio_corto localidad municipio a
               < nivel domicilio_corto localidad municipio b)%nat) r
  ∧ (∀ x, x ∈ r → (1 ≤ nivel domicilio_corto localidad municipio x ≤ 4)%nat)
  ∧ V2Text.estado_pais ∈ r.
Proof.
  intros Hnfd HMn r qn.
  assert (∀ x, x ∈ r ↔ x ∈ qn) as Hmem.
  { intros x. unfold r, V2Text.armar_queries_geocod.
    rewrite elem_of_unicos. fold qn.
    split; [by intros [? _] | intros ?; split; [done | apply not_elem_of_empty]]. }
  assert (V2Text.estado_pais ∈ r) as Hep.
  { apply Hmem. unfold qn, V2Text.queries_norm.
    rewrite !fmap_app. rewrite !elem_of_app. do 3 right.
    simpl. rewrite estado_pais_normal by done. by left. }
  split_and!.
  - intros Hr. rewrite Hr in Hep. by apply elem_of_nil in Hep.
  - apply NoDup_unicos.
  - exact Hmem.
  - apply unicos_sublist.
  - apply unicos_primero.
  - unfold r, V2Text.armar_queries_geocod, nivel.
    rewrite queries_norm_candidatos.
    apply unicos_nivel, candidatos_sorted.
  - intros x Hx. apply Hmem in Hx. unfold qn in Hx.
    rewrite queries_norm_candidatos in Hx.
    apply nivel_en_elem in Hx. by apply candidatos_niveles in Hx.
  - exact Hep.
Qed.

Lemma armar_queries_geocod_ranked_witness :
  let r := @V2Text.armar_queries_geocod Latin1.table
             (lit "CALLE HIDALGO 12") (Some (lit "CENTRO")) (Some (lit "LEON")) in
  r = [ lit "CALLE HIDALGO 12, LEON, Guanajuato, Mexico";
        lit "CENTRO, LEON, Guanajuato, Mexico";
        lit "LEON, Guanajuato, Mexico";
        lit "Guanajuato, Mexico" ]
  ∧ r ≠ [] ∧ NoDup r ∧ V2Text.estado_pais ∈ r.
Proof.
  assert (@nfd Latin1.table V2Text.estado_pais = V2Text.estado_pais) as Hnfd
    by reflexivity.
  assert (Forall (λ c, @is_Mn Latin1.table c = false) V2Text.estado_pais) as HMn
    by (repeat constructor).
  pose proof (@armar_queries_geocod_ranked Latin1.table
                (lit "CALLE HIDALGO 12") (Some (lit "CENTRO"))
                (Some (lit "LEON")) Hnfd HMn)
    as (Hne & Hnd & _ & _ & _ & _ & _ & Hep).
  split; [reflexivity|]. split_and!; [exact Hne | exact Hnd | exact Hep].
Defined.

(** ** What the tables must satisfy

    These hold of [unicodedata] and of [str.upper]: ASCII code points
    are their own decomposition and separate what is decomposed on
    either side; decomposition creates no underscore and no
    precomposed n-tilde; ASCII and the n-tilde are not marks;
    the code points of an upper-cased text are fixed by [upper], and so
    are the space and the ASCII capitals. *)
Class NfdLaws `{Unicodedata} : Prop := {
  nfd_nil : nfd [] = [];
  nfd_ascii : ∀ a c b, 0 ≤ c < 128 → nfd (a ++ c :: b) = nfd a ++ c :: nfd b;
  nfd_creates_no :
    ∀ x s, (x = 95 ∨ x = 241 ∨ x = 209) → x ∉ s → x ∉ nfd s;
  not_Mn : ∀ c, (0 ≤ c < 128 ∨ c = 241 ∨ c = 209) → is_Mn c = false;
}.

Class UpperLaws `{Unicodedata} : Prop := {
  upper_fixed : ∀ c d, d ∈ upper_char c → upper_char d = [d];
  upper_ascii : ∀ c, (c = 32 ∨ (65 ≤ c ≤ 90)) → upper_char c = [c];
}.

Section NfdFacts.
Context `{NfdLaws}.

Definition ascii (s : str) : Prop := Forall (λ c, 0 ≤ c < 128) s.

Lemma nfd_ascii_str t : ∀ a c b,
  ascii (c :: t) → nfd (a ++ c :: t ++ b) = nfd a ++ c :: t ++ nfd b.
Proof.
  induction t as [|d t IH]; intros a c b [Hc Ht]%Forall_cons.
  - by apply nfd_ascii.
  - rewrite nfd_ascii by done. f_equal. f_equal.
    specialize (IH [] d b Ht). by rewrite nfd_nil in IH.
Qed.

End NfdFacts.

(** ** Accent stripping (claim C8) *)

Definition is_enie (c : Z) : Prop := c = 241 ∨ c = 209.

Global Instance is_enie_dec c : Decision (is_enie c).
Proof. unfold is_enie. apply _. Defined.

(** A text cut at its n-tildes: what comes before the first one, then
    each of them with the text that follows it. *)
Fixpoint partir (s : str) : str * list (Z * str) :=
  match s with
  | [] => ([], [])
  | c :: s' =>
      let '(s0, l) := partir s' in
      if decide (is_enie c) then ([], (c, s0) :: l) else (c :: s0, l)
  end.

(** The text again, with each n-tilde written as [tokf] says. *)
Definition unir (tokf : Z → str) (p : str * list (Z * str)) : str :=
  p.1 ++ flat_map (λ es, tokf es.1 ++ es.2) p.2.

Definition en_trozos (f : str → str) (p : str * list (Z * str))
  : str * list (Z * str) :=
  (f p.1, (λ es, (es.1, f es.2)) <$> p.2).

Definition como_letra (e : Z) : str := [e].
Definition como_token (e : Z) : str :=
  if decide (e = 241) then V2Text.tok_min else V2Text.tok_may.
Definition a_medias (e : Z) : str :=
  if decide (e = 241) then [241] else V2Text.tok_may.

(** A piece of text with no underscore and no n-tilde. *)
Definition limpio (s : str) : Prop := (95 ∉ s) ∧ (241 ∉ s) ∧ (209 ∉ s).

Definition bien (p : str * list (Z * str)) : Prop :=
  limpio p.1 ∧ Forall (λ es, is_enie es.1 ∧ limpio es.2) p.2.

Lemma unir_cons tokf s0 e s1 l :
  unir tokf (s0, (e, s1) :: l) = s0 ++ tokf e ++ unir tokf (s1, l).
Proof. unfold unir. simpl. by rewrite <-(assoc_L (++)). Qed.

Lemma bien_cons s0 e s1 l :
  bien (s0, (e, s1) :: l) ↔ limpio s0 ∧ is_enie e ∧ bien (s1, l).
Proof. unfold bien. simpl. rewrite Forall_cons. simpl. tauto. Qed.

Lemma unir_partir s : unir como_letra (partir s) = s.
Proof.
  induction s as [|c s IH]; [done|]. simpl.
  destruct (partir s) as [s0 l]. destruct (decide (is_enie c)).
  - rewrite unir_cons. simpl. by rewrite IH.
  - unfold unir in *. simpl in *. by rewrite IH.
Qed.

Lemma partir_bien s : 95 ∉ s → bien (partir s).
Proof.
  induction s as [|c s IH]; intros Hs.
  - repeat split; simpl; try apply not_elem_of_nil. constructor.
  - apply not_elem_of_cons in Hs as [Hc Hs]. specialize (IH Hs). simpl.
    destruct (partir s) as [s0 l]. destruct (decide (is_enie c)) as [He|He].
    + apply bien_cons. split_and!; [|done|done].
      repeat split; apply not_elem_of_nil.
    + destruct IH as [(H1 & H2 & H3) Hl]. split; [|done]. simpl.
      unfold is_enie in He.
      repeat split; apply not_elem_of_cons; split; auto.
  Qed.

Lemma filter_enie_limpio s : limpio s → filter is_enie s = [].
Proof.
  intros (_ & H1 & H2). induction s as [|c s IH]; [done|].
  apply not_elem_of_cons in H1 as [? ?], H2 as [? ?].
  rewrite filter_cons. destruct (decide (is_enie c)) as [[?|?]|]; [done..|].
  by apply IH.
Qed.

Lemma filter_enie_unir p :
  bien p → filter is_enie (unir como_letra p) = fst <$> p.2.
Proof.
  destruct p as [s0 l]. revert s0.
  induction l as [|[e s1] l IH]; intros s0 Hp.
  - destruct Hp as [Hs0 _]. unfold unir. simpl.
    by rewrite app_nil_r, filter_enie_limpio.
  - apply bien_cons in Hp as (Hs0 & He & Hp).
    rewrite unir_cons, filter_app, filter_enie_limpio by done. simpl.
    rewrite filter_cons. destruct (decide (is_enie e)); [|done].
    by rewrite IH.
Qed.

Section Enie.
Context `{NfdLaws}.
Import V2Text PyFacts.

(** The two replacements that put the tokens in. *)
Definition proteger (s : str) : str :=
  Py.replace (Py.replace s enie_min tok_min) enie_may tok_may.

(** The two replacements that take them out. *)
Definition restaurar (s : str) : str :=
  Py.replace (Py.replace s tok_min enie_min) tok_may enie_may.

Definition sin_marcas (s : str) : str := filter (λ ch, is_Mn ch = false) s.

Lemma strip_accents_keep_enie_steps text :
  text ≠ [] →
  strip_accents_keep_enie text
  = restaurar (sin_marcas (nfd (proteger (Py.join (lit " ") (Py.split text))))).
Proof. by destruct text. Qed.

Lemma proteger_map s :
  proteger s
  = flat_map (λ c, if Py.eqz 241 c then tok_min
                   else if Py.eqz 209 c then tok_may else [c]) s.
Proof.
  unfold proteger, enie_min, enie_may. rewrite !replace_single.
  induction s as [|c s IH]; [done|]. cbn [flat_map].
  rewrite flat_map_app, IH. f_equal.
  destruct (Py.eqz 241 c) eqn:H1; [reflexivity|].
  cbn [flat_map]. by rewrite app_nil_r.
Qed.

Lemma proteger_app a b : proteger (a ++ b) = proteger a ++ proteger b.
Proof. by rewrite !proteger_map, flat_map_app. Qed.

Lemma proteger_limpio s : limpio s → proteger s = s.
Proof.
  intros (_ & H1 & H2). rewrite proteger_map.
  induction s as [|c s IH]; [done|].
  apply not_elem_of_cons in H1 as [? ?], H2 as [? ?]. cbn [flat_map].
  rewrite !eqz_ne by done. by rewrite IH.
Qed.

Lemma proteger_enie e : is_enie e → proteger [e] = como_token e.
Proof. by intros [->| ->]. Qed.

Lemma proteger_unir p :
  bien p → proteger (unir como_letra p) = unir como_token p.
Proof.
  destruct p as [s0 l]. revert s0.
  induction l as [|[e s1] l IH]; intros s0 Hp.
  - destruct Hp as [Hs0 _]. unfold unir. simpl.
    by rewrite !app_nil_r, proteger_limpio.
  - apply bien_cons in Hp as (Hs0 & He & Hp).
    rewrite !unir_cons. unfold como_letra at 1.
    change ([e] ++ ?x) with (e :: x).
    rewrite proteger_app, proteger_limpio by done.
    change (e :: ?x) with ([e] ++ x).
    by rewrite proteger_app, proteger_enie, IH.
Qed.

Lemma como_token_ascii e : ∃ c t, como_token e = c :: t ∧ ascii (c :: t).
Proof.
  unfold como_token. destruct (decide (e = 241)).
  - eexists _, _. split; [reflexivity|]. repeat constructor; lia.
  - eexists _, _. split; [reflexivity|]. repeat constructor; lia.
Qed.

Lemma nfd_unir p :
  nfd (unir como_token p) = unir como_token (en_trozos nfd p).
Proof.
  destruct p as [s0 l]. revert s0.
  induction l as [|[e s1] l IH]; intros s0.
  - unfold unir. simpl. by rewrite !app_nil_r.
  - unfold en_trozos. simpl. rewrite !unir_cons.
    destruct (como_token_ascii e) as (c & t & -> & Hct).
    change ((c :: t) ++ ?x) with (c :: t ++ x).
    rewrite nfd_ascii_str by done. by rewrite IH.
Qed.

Lemma sin_marcas_ascii t : ascii t → sin_marcas t = t.
Proof.
  intros Ht. apply filter_all. eapply Forall_impl; [exact Ht|].
  intros c Hc. apply not_Mn. by left.
Qed.

Lemma sin_marcas_unir p :
  sin_marcas (unir como_token p) = unir como_token (en_trozos sin_marcas p).
Proof.
  destruct p as [s0 l]. revert s0.
  induction l as [|[e s1] l IH]; intros s0.
  - unfold unir. simpl. by rewrite !app_nil_r.
  - unfold en_trozos. simpl. rewrite !unir_cons.
    unfold sin_marcas at 1. rewrite !filter_app.
    fold (sin_marcas s0) (sin_marcas (como_token e)) (sin_marcas (unir como_token (s1, l))).
    rewrite IH. f_equal. f_equal.
    destruct (como_token_ascii e) as (c & t & -> & Hct).
    by apply sin_marcas_ascii.
Qed.

Lemma limpio_sin_marcas_nfd s : limpio s → limpio (sin_marcas (nfd s)).
Proof.
  intros (H1 & H2 & H3).
  repeat split; intros [_ Hin]%list_elem_of_filter; revert Hin;
    apply nfd_creates_no; auto.
Qed.

Lemma bien_en_trozos p :
  bien p → bien (en_trozos (λ s, sin_marcas (nfd s)) p).
Proof.
  intros [Hs0 Hl]. split; simpl; [by apply limpio_sin_marcas_nfd|].
  rewrite Forall_fmap. eapply Forall_impl; [exact Hl|].
  intros [e s] [He Hs]. split; [done|]. by apply limpio_sin_marcas_nfd.
Qed.

Lemma en_trozos_compose f g p :
  en_trozos f (en_trozos g p) = en_trozos (f ∘ g) p.
Proof.
  unfold en_trozos. simpl. f_equal. by rewrite <-list_fmap_compose.
Qed.

Definition tok_min_codes : str :=
  [95; 95; 101; 110; 105; 101; 95; 109; 105; 110; 95; 95].
Definition tok_may_codes : str :=
  [95; 95; 101; 110; 105; 101; 95; 109; 97; 121; 95; 95].

(** The text after a token does not complete a token begun inside
    the one before it. *)
Definition sin_solape (w : str) : Prop :=
  Py.starts_with [101; 110; 105; 101; 95; 109; 105; 110; 95; 95] w = false
  ∧ Py.starts_with [95; 101; 110; 105; 101; 95; 109; 105; 110; 95; 95] w = false.

Lemma sin_solape_unir p : bien p → sin_solape (unir como_token p).
Proof.
  destruct p as [s0 l]. intros [(Hs0 & _ & _) Hl]. simpl in *.
  assert (flat_map (λ es : Z * str, como_token es.1 ++ es.2) l = []
          ∨ ∃ r, flat_map (λ es : Z * str, como_token es.1 ++ es.2) l
                 = 95 :: 95 :: r) as Hrest.
  { destruct l as [|[e s1] l]; [by left|]. right. simpl.
    unfold como_token. destruct (decide (e = 241)); eexists; reflexivity. }
  unfold unir. simpl. split.
  - apply (starts_with_blocked [101; 110; 105; 101] 109 [105; 110; 95; 95]);
      [|done..]. set_unfold. lia.
  - apply (starts_with_blocked [] 101 [110; 105; 101; 95; 109; 105; 110; 95; 95]);
      [|done..]. apply not_elem_of_nil.
Qed.

Lemma replace_go_over_may new w :
  sin_solape w →
  Py.replace_go tok_min new O (tok_may ++ w)
  = tok_may ++ Py.replace_go tok_min new O w.
Proof.
  intros [H1 H2].
  change tok_min with tok_min_codes. change tok_may with tok_may_codes.
  unfold tok_may_codes. cbn [app].
  do 12 (rewrite replace_go_step; [|first [reflexivity | exact H1 | exact H2]]).
  reflexivity.
Qed.

Lemma restaurar_min p :
  bien p → Py.replace (unir como_token p) tok_min enie_min = unir a_medias p.
Proof.
  change (Py.replace ?s tok_min enie_min)
    with (Py.replace_go tok_min enie_min O s).
  destruct p as [s0 l]. revert s0.
  induction l as [|[e s1] l IH]; intros s0 Hp.
  - destruct Hp as [(Hs0 & _) _]. unfold unir. simpl.
    by rewrite (replace_go_skip_text _ _ 95), replace_go_nil.
  - apply bien_cons in Hp as ((Hs0 & _) & He & Hp). rewrite !unir_cons.
    rewrite (replace_go_skip_text _ _ 95) by done. f_equal.
    unfold como_token, a_medias. destruct (decide (e = 241)).
    + rewrite replace_go_match by done. by rewrite IH.
    + rewrite replace_go_over_may by (by apply sin_solape_unir).
      by rewrite IH.
Qed.

Lemma restaurar_may p :
  bien p → Py.replace (unir a_medias p) tok_may enie_may = unir como_letra p.
Proof.
  change (Py.replace ?s tok_may enie_may)
    with (Py.replace_go tok_may enie_may O s).
  destruct p as [s0 l]. revert s0.
  induction l as [|[e s1] l IH]; intros s0 Hp.
  - destruct Hp as [(Hs0 & _) _]. unfold unir. simpl.
    by rewrite (replace_go_skip_text _ _ 95), replace_go_nil.
  - apply bien_cons in Hp as ((Hs0 & _) & He & Hp). rewrite !unir_cons.
    unfold a_medias, como_letra. destruct (decide (e = 241)) as [->|Hne].
    + rewrite (assoc_L (++)).
      rewrite (replace_go_skip_text _ _ 95); [|done|].
      * by rewrite IH, <-(assoc_L (++)).
      * apply not_elem_of_app. split; [done|]. set_unfold. lia.
    + destruct He as [->| ->]; [done|].
      rewrite (replace_go_skip_text _ _ 95) by done. f_equal.
      rewrite replace_go_match by done. by rewrite IH.
Qed.

Lemma restaurar_unir p :
  bien p → restaurar (unir como_token p) = unir como_letra p.
Proof.
  intros Hp. unfold restaurar. by rewrite restaurar_min, restaurar_may.
Qed.

Definition espaciar (text : str) : str := Py.join (lit " ") (Py.split text).

Lemma espaciar_sin_guion text : 95 ∉ text → 95 ∉ espaciar text.
Proof.
  intros Ht [Hin|Hin]%elem_of_join.
  - change (lit " ") with [32] in Hin. set_unfold. lia.
  - unfold Py.split in Hin. rewrite split_go_concat in Hin. simpl in Hin.
    by apply list_elem_of_filter in Hin as [_ Hin].
Qed.

Lemma filter_enie_espaciar text :
  filter is_enie (espaciar text) = filter is_enie text.
Proof.
  unfold espaciar. rewrite filter_join.
  2: { change (lit " ") with [32]. repeat constructor. intros [?|?]; done. }
  unfold Py.split. rewrite split_go_concat. simpl.
  induction text as [|c text IH]; [done|].
  rewrite !filter_cons. destruct (decide (Py.is_space c = false)) as [Hc|Hc].
  - rewrite filter_cons. by rewrite IH.
  - rewrite IH. destruct (decide (is_enie c)) as [[->| ->]|]; done.
Qed.

(** Without underscores in the text, the function works piece by
    piece: every stretch between n-tildes is decomposed and loses its
    marks, and the n-tildes stay where they are. *)
Lemma strip_accents_keep_enie_trozos text :
  95 ∉ text →
  strip_accents_keep_enie text
  = unir como_letra
      (en_trozos (λ s, sin_marcas (nfd s)) (partir (espaciar text))).
Proof.
  intros Ht. destruct (decide (text = [])) as [->|Hne].
  { simpl. unfold unir, en_trozos, sin_marcas. simpl. by rewrite nfd_nil. }
  rewrite strip_accents_keep_enie_steps by done. fold (espaciar text).
  pose proof (partir_bien _ (espaciar_sin_guion _ Ht)) as Hp.
  rewrite <-(unir_partir (espaciar text)) at 1.
  rewrite proteger_unir, nfd_unir, sin_marcas_unir by done.
  rewrite en_trozos_compose. apply restaurar_unir.
  by apply bien_en_trozos.
Qed.

Lemma strip_accents_keep_enie_sin_marcas text :
  Forall (λ c, is_Mn c = false) (strip_accents_keep_enie text).
Proof.
  destruct (decide (text = [])) as [->|Hne]; [constructor|].
  rewrite strip_accents_keep_enie_steps by done. unfold restaurar.
  apply Forall_replace; [done| |].
  - apply Forall_replace; [done| |].
    + unfold sin_marcas. apply Forall_forall.
      by intros c [Hc _]%list_elem_of_filter.
    + repeat constructor. apply not_Mn. auto.
  - repeat constructor. apply not_Mn. auto.
Qed.

(** *** A second pass *)

Definition mapa_tokens (c : Z) : str :=
  if Py.eqz 241 c then tok_min else if Py.eqz 209 c then tok_may else [c].



Lemma mapa_tokens_id s : 241 ∉ s → 209 ∉ s → flat_map mapa_tokens s = s.
Proof.
  induction s as [|c s IH]; [done|].
  intros [? ?]%not_elem_of_cons [? ?]%not_elem_of_cons. simpl.
  unfold mapa_tokens at 1. rewrite !eqz_ne by done. simpl. by rewrite IH.
Qed.




End Enie.

(** ** The evaluation table satisfies the laws *)

(** One comparison at a time, dropping the impossible branch at once. *)
Ltac zcases :=
  repeat match goal with
    | |- context [(?a <=? ?b)] => destruct (Z.leb_spec a b); try lia
    | |- context [(?a =? ?b)] => destruct (Z.eqb_spec a b); try lia
    end;
  cbn [andb orb negb] in *.

Ltac zbool :=
  repeat match goal with
    | |- context [(?a <=? ?b)] => destruct (Z.leb_spec a b)
    | |- context [(?a =? ?b)] => destruct (Z.eqb_spec a b)
    | H : context [(?a <=? ?b)] |- _ => destruct (Z.leb_spec a b)
    | H : context [(?a =? ?b)] |- _ => destruct (Z.eqb_spec a b)
    end;
  cbn [andb orb negb] in *.

Section Latin1Laws.
Existing Instance Latin1.table.

(** What a code point of a decomposition can be. *)
Definition trozo_ok (c y : Z) : Prop := (y = 95 → c = 95) ∧ y ≠ 241 ∧ y ≠ 209.

Global Instance trozo_ok_dec c y : Decision (trozo_ok c y).
Proof. unfold trozo_ok. apply _. Defined.

Lemma decompose_tabla :
  Forall (λ c, Forall (trozo_ok c) (Latin1.decompose c))
    ((λ i, 192 + Z.of_nat i) <$> seq 0 64).
Proof.
  eapply bool_decide_eq_true_1. vm_compute. reflexivity.
Qed.

Lemma decompose_ok c y : y ∈ Latin1.decompose c → trozo_ok c y.
Proof.
  destruct (decide (192 ≤ c ≤ 255)) as [Hc|Hc].
  - pose proof decompose_tabla as Ht. rewrite Forall_forall in Ht.
    intros Hy. specialize (Ht c). rewrite Forall_forall in Ht.
    apply Ht; [|done]. apply list_elem_of_fmap.
    exists (Z.to_nat (c - 192)). split; [lia|].
    apply elem_of_seq. lia.
  - unfold Latin1.decompose. zbool; try lia;
      intros ->%list_elem_of_singleton; unfold trozo_ok; lia.
Qed.

Lemma decompose_ascii c : 0 ≤ c < 128 → Latin1.decompose c = [c].
Proof. intros Hc. unfold Latin1.decompose. zbool; try lia; done. Qed.

Global Instance latin1_nfd_laws : NfdLaws.
Proof.
  split.
  - reflexivity.
  - intros a c b Hc. simpl. rewrite flat_map_app. simpl.
    by rewrite decompose_ascii.
  - intros x s Hx Hs Hin. simpl in Hin.
    apply list_elem_of_In, in_flat_map in Hin as (c & Hc & Hy).
    apply list_elem_of_In in Hc, Hy.
    apply decompose_ok in Hy as (H95 & H241 & H209).
    destruct Hx as [->|[->| ->]]; [|done..].
    rewrite H95 in Hc by done. done.
  - intros c Hc. simpl. zbool; try reflexivity; lia.
Qed.

Lemma is_lower_spec c :
  Latin1.is_lower c = true
  ↔ (97 ≤ c ≤ 122) ∨ ((224 ≤ c ≤ 254) ∧ c ≠ 247).
Proof. unfold Latin1.is_lower. zbool; split; try done; lia. Qed.

Lemma to_upper_out c d :
  d ∈ Latin1.to_upper c →
  Latin1.is_lower d = false ∧ d ≠ 223 ∧ d ≠ 181 ∧ d ≠ 255.
Proof.
  unfold Latin1.to_upper. intros Hd.
  assert (¬ ((97 ≤ d ≤ 122) ∨ ((224 ≤ d ≤ 254) ∧ d ≠ 247))
          ∧ d ≠ 223 ∧ d ≠ 181 ∧ d ≠ 255) as (Hl & ? & ? & ?).
  { destruct (Latin1.is_lower c) eqn:Hc.
    - apply is_lower_spec in Hc. apply list_elem_of_singleton in Hd. lia.
    - assert (¬ ((97 ≤ c ≤ 122) ∨ ((224 ≤ c ≤ 254) ∧ c ≠ 247))) as Hc'.
      { rewrite <-is_lower_spec. by rewrite Hc. }
      destruct (Z.eqb_spec c 223).
      { set_unfold. lia. }
      destruct (Z.eqb_spec c 181).
      { set_unfold. lia. }
      destruct (Z.eqb_spec c 255).
      { set_unfold. lia. }
      apply list_elem_of_singleton in Hd. lia. }
  split_and!; try done.
  destruct (Latin1.is_lower d) eqn:Hd'; [|done].
  by apply is_lower_spec in Hd'.
Qed.

Global Instance latin1_upper_laws : UpperLaws.
Proof.
  split.
  - intros c d Hd. simpl in *. apply to_upper_out in Hd as (Hl & ? & ? & ?).
    unfold Latin1.to_upper. rewrite Hl. zbool; try lia; done.
  - intros c Hc. simpl. unfold Latin1.to_upper, Latin1.is_lower.
    zbool; try reflexivity; lia.
Qed.

End Latin1Laws.

(** X22: the output of [strip_accents_keep_enie] never contains a
    combining mark; and when the input contains no underscore, the
    precomposed n-tildes of the output are those of the input, one for
    one and in the same order, each stretch of text between them being
    decomposed and stripped of its marks on its own. *)
Theorem strip_accents_keep_enie_preserves `{NfdLaws} (text : str) :
  Forall (λ c, is_Mn c = false) (V2Text.strip_accents_keep_enie text)
  ∧ (95 ∉ text →
     filter is_enie (V2Text.strip_accents_keep_enie text) = filter is_enie text
     ∧ V2Text.strip_accents_keep_enie text
       = unir como_letra
           (en_trozos (λ s, sin_marcas (nfd s)) (partir (espaciar text)))).
Proof.
  split; [apply strip_accents_keep_enie_sin_marcas|].
  intros Ht. split; [|by apply strip_accents_keep_enie_trozos].
  rewrite strip_accents_keep_enie_trozos by done.
  pose proof (partir_bien _ (espaciar_sin_guion _ Ht)) as Hp.
  rewrite filter_enie_unir by (by apply bien_en_trozos).
  transitivity (fst <$> (partir (espaciar text)).2).
  - simpl. by rewrite <-list_fmap_compose.
  - rewrite <-(filter_enie_espaciar text).
    rewrite <-(unir_partir (espaciar text)) at 2.
    by rewrite filter_enie_unir.
Qed.

Definition pena_nandu : str :=
  lit "Pe" ++ [241] ++ lit "a  " ++ [209] ++ lit "and" ++ [250].

Lemma strip_accents_keep_enie_preserves_witness :
  (95 ∉ pena_nandu)
  ∧ @V2Text.strip_accents_keep_enie Latin1.table pena_nandu
    = lit "Pe" ++ [241] ++ lit "a " ++ [209] ++ lit "andu"
  ∧ filter is_enie (@V2Text.strip_accents_keep_enie Latin1.table pena_nandu)
    = [241; 209].
Proof.
  assert (95 ∉ pena_nandu) as Hsin.
  { vm_compute. intros Hin. set_unfold. lia. }
  split; [exact Hsin|]. split; [reflexivity|].
  destruct (@strip_accents_keep_enie_preserves Latin1.table latin1_nfd_laws
              pena_nandu) as [_ Hpres].
  destruct (Hpres Hsin) as [Heq _]. rewrite Heq. reflexivity.
Defined.

(** C8 at three inputs on which the n-tilde is not kept.  A text that
    holds part of a placeholder: the capital n-tilde of the input is
    gone from the output and a small one stands at its start.  A text
    that spells a placeholder: an n-tilde appears that the input did
    not have.  An n-tilde written as n followed by the combining tilde
    U+0303: it comes out as a plain n. *)
Theorem strip_accents_keep_enie_loses_enie :
  let f := @V2Text.strip_accents_keep_enie Latin1.table in
  let text := lit "__enie_min" ++ [209] in
  f text = [241] ++ lit "enie_may__"
  ∧ filter is_enie (f text) ≠ filter is_enie text
  ∧ f (lit "__enie_min__") = [241]
  ∧ f (lit "Espan" ++ [771] ++ lit "a") = lit "Espana".
Proof.
  split_and!; [reflexivity | vm_compute; discriminate | reflexivity
              | reflexivity].
Qed.

(** ** Idempotence (claim C7) *)

Section Mayusculas.
Context `{UpperLaws}.
Import PyFacts.

(** A code point that [upper] leaves alone. *)
Definition fijo (c : Z) : Prop := upper_char c = [c].

Lemma upper_fijos s : Forall fijo (Py.upper s).
Proof.
  unfold Py.upper. induction s as [|c s IH]; [constructor|]. simpl.
  apply Forall_app. split; [|done].
  apply Forall_forall. intros d Hd. by apply (upper_fixed c).
Qed.

Lemma upper_de_fijos s : Forall fijo s → Py.upper s = s.
Proof.
  unfold Py.upper. induction 1 as [|c s Hc _ IH]; [done|]. simpl.
  by rewrite Hc, IH.
Qed.

Lemma fijos_ascii s :
  Forall (λ c, c = 32 ∨ (65 ≤ c ≤ 90)) s → Forall fijo s.
Proof.
  intros Hs. eapply Forall_impl; [exact Hs|].
  intros c Hc. by apply upper_ascii.
Qed.

End Mayusculas.

Section FrasesBasura.
Context `{UpperLaws}.
Import V2Text PyFacts.

Definition en_coma_espacio (c : Z) : bool := existsb (Py.eqz c) (lit ", ").

Lemma cortar_fijos (P : Z → Prop) txt marcas :
  Forall P txt → Forall P (cortar txt marcas).
Proof.
  intros Ht. induction marcas as [|m ms IH]; [done|]. simpl.
  destruct (negb _); [by apply Forall_take | done].
Qed.


(** What the function returns: upper-case code points, in words
    separated by single spaces, with no comma or space at either
    end. *)
Lemma limpiar_frases_basura_forma domicilio :
  let y := limpiar_frases_basura domicilio in
  Forall fijo y
  ∧ (∃ ws, Forall palabra ws ∧ y = Py.join [32] ws)
  ∧ Py.strip_by en_coma_espacio y = y.
Proof.
  unfold limpiar_frases_basura. destruct (falsy domicilio).
  { split_and!; [constructor | by exists [] | done]. }
  set (txt := Py.replace (Py.replace _ _ _) _ _).
  assert (Forall fijo txt) as Htxt.
  { unfold txt. apply Forall_replace; [done| |constructor].
    apply Forall_replace; [done| |constructor].
    apply cortar_fijos, upper_fijos. }
  unfold Py.strip_chars. fold en_coma_espacio. split_and!.
  - apply Forall_strip_by, Forall_join.
    + apply fijos_ascii. repeat constructor.
    + by apply Forall_split_go.
  - apply (strip_by_join en_coma_espacio); [done | apply split_palabras].
  - apply strip_by_idem.
Qed.


End FrasesBasura.

Section Domicilio.
Context `{UpperLaws}.
Import Preparar PyFacts.

Definition solo32 (s : str) : Prop :=
  Forall (λ c, Py.is_space c = true → c = 32) s.

Definition en_puntuacion (c : Z) : bool := existsb (Py.eqz c) (lit ",.;- ").

Lemma reemplazos_fijos (P : Z → Prop) txt (tabla : list (str * str)) :
  Forall (λ kv, kv.1 ≠ [] ∧ Forall P kv.2) tabla →
  Forall P txt →
  Forall P (foldl (λ txt kv, Py.replace txt kv.1 kv.2) txt tabla).
Proof.
  intros Ht. revert txt. induction Ht as [|[k v] tabla [Hk Hv] _ IH]; [done|].
  intros txt Htxt. simpl. apply IH. by apply Forall_replace.
Qed.


Lemma reemplazos_valores :
  Forall (λ kv : str * str,
            kv.1 ≠ [] ∧ Forall (λ c, c = 32 ∨ (65 ≤ c ≤ 90)) kv.2)
    reemplazos.
Proof. eapply bool_decide_eq_true_1. vm_compute. reflexivity. Qed.

(** What the function returns: upper-case code points, no white space
    but the space, no punctuation or space at either end. *)
Lemma limpiar_domicilio_forma raw :
  let y := limpiar_domicilio raw in
  Forall fijo y ∧ solo32 y
  ∧ Py.lstrip_by en_puntuacion y = y ∧ Py.rstrip_by en_puntuacion y = y.
Proof.
  unfold limpiar_domicilio. destruct (falsy raw).
  { split_and!; [constructor | constructor | done | done]. }
  unfold Py.strip_chars. fold en_puntuacion.
  set (txt := Re.sub re_espacios _ _).
  split_and!.
  - apply Forall_strip_by, reemplazos_fijos.
    + eapply Forall_impl; [apply reemplazos_valores|].
      intros [k v] [Hk Hv]. split; [done | by apply fijos_ascii].
    + unfold txt, Re.sub. apply ReSem.Forall_sub_go.
      * apply ReSem.Forall_sub_go; [|constructor].
        apply Forall_strip_by, upper_fijos.
      * apply fijos_ascii. repeat constructor.
  - apply Forall_strip_by, reemplazos_fijos.
    + eapply Forall_impl; [apply reemplazos_valores|].
      intros [k v] [Hk Hv]. split; [done|].
      eapply Forall_impl; [exact Hv|]. intros c [->|Hc] Hsp; [done|].
      exfalso. revert Hsp. unfold Py.is_space. zcases.
    + apply ReSem.sub_espacios_solo32.
  - by eapply strip_by_fixed.
  - by eapply strip_by_fixed.
Qed.


End Domicilio.


Definition escuela : str :=
  lit "Domicilio: Escuela Benito Ju" ++ [225]
    ++ lit "rez, calle Hidalgo No. 12 s/n esquina Morelos".



(** ** Cutting at a phrase (claim C6) *)

(** C6 at an address with two noise phrases, the later of which comes
    first in the list: [limpiar_frases_basura] cuts at " A 50 METROS"
    (offset 34) although " FRENTE A " occurs at offset 16, and the text
    it returns still contains " FRENTE A ". *)
Theorem limpiar_frases_basura_keeps_phrase :
  let domicilio := lit "Calle Hidalgo 12 frente a la plaza a 50 metros del rio" in
  let txt := @Py.upper Latin1.table domicilio in
  let y := @V2Text.limpiar_frases_basura Latin1.table domicilio in
  Py.find txt (lit " FRENTE A ") = 16
  ∧ Py.find txt (lit " A 50 METROS") = 34
  ∧ y = lit "CALLE HIDALGO 12 FRENTE A LA PLAZA"
  ∧ Py.contains (lit " FRENTE A ") y = true.
Proof. vm_compute. repeat split. Qed.

Section Corto.
Import Preparar PyFacts.

(** The loop of [domicilio_corto] ends on the least offset at which
    any marker occurs, or on its starting value. *)
Lemma corte_menor base mks : ∀ n,
  corte base n mks ≤ n
  ∧ Forall (λ mk, Py.find base mk = -1 ∨ corte base n mks ≤ Py.find base mk) mks.
Proof.
  unfold corte. induction mks as [|mk mks IH]; intros n; simpl.
  - split; [lia | constructor].
  - set (n' := if negb (Py.find base mk =? -1) && (Py.find base mk <? n)
               then Py.find base mk else n).
    assert (n' ≤ n ∧ (Py.find base mk = -1 ∨ n' ≤ Py.find base mk)) as [Hn Hmk].
    { unfold n'. destruct (Z.eqb_spec (Py.find base mk) (-1)); simpl; [lia|].
      destruct (Z.ltb_spec (Py.find base mk) n); lia. }
    destruct (IH n') as [Hle Hall]. split; [lia|].
    constructor; [|done]. destruct Hmk; [by left | right; lia].
Qed.

Lemma take_sin_marcador base mk (n : nat) :
  mk ≠ [] →
  (Py.find base mk = -1 ∨ Z.of_nat n ≤ Py.find base mk) →
  ¬ subcadena mk (take n base).
Proof.
  intros Hne Hfind (pre & post & Heq).
  assert (base = pre ++ mk ++ (post ++ drop n base)) as Hbase.
  { rewrite <-(take_drop n base) at 1. rewrite Heq.
    by rewrite <-!(assoc_L (++)). }
  destruct (find_from_first mk pre (post ++ drop n base) 0) as [H1 H2]; [lia|].
  rewrite <-Hbase in H1, H2. fold (Py.find base mk) in H1, H2.
  assert (length (take n base) ≤ n)%nat as Hlen by (rewrite length_take; lia).
  rewrite Heq, !length_app in Hlen.
  destruct mk; [done|]. simpl in Hlen. lia.
Qed.

(** The sibling of [limpiar_frases_basura] in the preparation script
    does cut at the earliest marker: what [domicilio_corto] returns
    contains none of them. *)
Lemma domicilio_corto_sin_marcadores txt :
  Forall (λ mk, Py.contains mk (domicilio_corto txt) = false) marcadores.
Proof.
  apply Forall_forall. intros mk Hmk.
  assert (mk ≠ []) as Hne.
  { intros ->. revert Hmk. unfold marcadores. set_unfold.
    intros Hor. repeat (destruct Hor as [Hor|Hor]; [discriminate Hor|]).
    done. }
  apply not_true_is_false. rewrite contains_subcadena.
  unfold domicilio_corto. destruct (falsy txt).
  { intros (pre & post & Heq). symmetry in Heq.
    apply app_nil in Heq as [_ Heq]. apply app_nil in Heq as [Heq _]. done. }
  intros Hsub. unfold Py.strip_chars, Py.strip in Hsub.
  do 2 apply subcadena_strip_by in Hsub. revert Hsub.
  set (base := lit " " ++ txt ++ lit " ").
  destruct (corte_menor base marcadores (Z.of_nat (length base))) as [Hle Hall].
  rewrite Forall_forall in Hall. specialize (Hall mk Hmk).
  unfold Py.slice_to. apply take_sin_marcador; [done|].
  pose proof (find_from_ge mk base 0 ltac:(lia)) as Hge.
  unfold Py.find in *. lia.
Qed.

End Corto.

(** * Further properties of the three scripts *)

(** ** The loop of [geocodificar_casillas.py] *)

Section V1Loop.
Context `{Unicodedata}.

Lemma lookup_contadores geocode st q :
  V1.ok (V1.lookup geocode st q).2 = V1.ok st
  ∧ V1.fail (V1.lookup geocode st q).2 = V1.fail st.
Proof. unfold V1.lookup. by destruct (V1.cache st !! q). Qed.

(** A record raises exactly one of the two counters: [ok] when it gets
    a geometry, [fail] when it does not. *)
Lemma paso_cuenta geocode st feat :
  let r := V1.paso geocode st feat in
  (is_Some (geometry r.2)
   ∧ V1.ok r.1 = S (V1.ok st) ∧ V1.fail r.1 = V1.fail st)
  ∨ (geometry r.2 = None
     ∧ V1.ok r.1 = V1.ok st ∧ V1.fail r.1 = S (V1.fail st)).
Proof.
  unfold V1.paso. destruct (negb _); [by right|].
  set (q := default [] _).
  destruct (lookup_contadores geocode st q) as [Hok Hfail].
  destruct (V1.lookup geocode st q) as [[loc|] st']; simpl in *.
  - left. rewrite Hok, Hfail. split; [by eexists | done].
  - right. by rewrite Hok, Hfail.
Qed.

Lemma bucle_cuenta geocode features : ∀ st,
  let r := V1.bucle geocode st features in
  V1.ok r.1
  = (V1.ok st + length (filter (λ f, is_Some (geometry f)) r.2))%nat
  ∧ V1.fail r.1
    = (V1.fail st + length (filter (λ f, ¬ is_Some (geometry f)) r.2))%nat
  ∧ length r.2 = length features.
Proof.
  induction features as [|feat rest IH]; intros st; simpl.
  { split_and!; [lia | lia | done]. }
  pose proof (paso_cuenta geocode st feat) as Hp.
  destruct (V1.paso geocode st feat) as [st1 feat']. simpl in Hp.
  specialize (IH st1).
  destruct (V1.bucle geocode st1 rest) as [st2 rest']. simpl in *.
  destruct IH as (Hok & Hfail & Hlen).
  rewrite !filter_cons.
  destruct Hp as [(Hg & Hok1 & Hfail1)|(Hg & Hok1 & Hfail1)].
  - destruct (decide (is_Some (geometry feat'))); [|done].
    destruct (decide (¬ is_Some (geometry feat'))); [done|].
    simpl. split_and!; lia.
  - destruct (decide (is_Some (geometry feat'))) as [[? Hs]|]; [congruence|].
    destruct (decide (¬ is_Some (geometry feat'))); [|done].
    simpl. split_and!; lia.
Qed.

(** A relation between a record and what the loop wrote for it that
    holds for each turn of the loop holds along the whole run. *)
Lemma bucle_Forall2 (P : feature → Prop) (R : feature → feature → Prop)
    geocode features :
  (∀ st feat, P feat → R feat (V1.paso geocode st feat).2) →
  Forall P features →
  ∀ st, Forall2 R features (V1.bucle geocode st features).2.
Proof.
  intros Hpaso Hwf. induction Hwf as [|feat rest Hf _ IH]; intros st; simpl.
  { constructor. }
  pose proof (Hpaso st feat Hf) as Hp.
  destruct (V1.paso geocode st feat) as [st1 feat']. simpl in Hp.
  specialize (IH st1).
  destruct (V1.bucle geocode st1 rest) as [st2 rest']. simpl in *.
  by constructor.
Qed.

(** What the loop leaves alone in a record. *)
Definition conserva (feat feat' : feature) : Prop :=
  match properties feat, properties feat' with
  | Some props, Some props' =>
      ∀ k : string, k ≠ "GEOCOD_STATUS"%string → k ≠ "GEOCOD_QUERY"%string →
                    props' !! k = props !! k
  | None, None => True
  | _, _ => False
  end.

Lemma paso_conserva geocode st feat :
  conserva feat (V1.paso geocode st feat).2.
Proof.
  unfold V1.paso, conserva.
  destruct (properties feat) as [props|] eqn:Hprops; simpl.
  - destruct (negb _); simpl.
    + intros k Hk _. by rewrite lookup_insert_ne.
    + destruct (V1.lookup _ _ _) as [[loc|] st']; simpl;
        intros k Hk1 Hk2; by rewrite !lookup_insert_ne.
  - destruct (negb _); simpl; [done|].
    by destruct (V1.lookup _ _ _) as [[loc|] st'].
Qed.

(** *** The query and the status *)

Definition sin_domicilio (props : gmap string str) : Prop :=
  get_or_empty props "DOMICILIO_CORTO" = []
  ∧ get_or_empty props "DOMICILIO_LIMPIO" = []
  ∧ get_or_empty props "DOMICILIO" = [].

Lemma falsy_nil s : falsy s = true ↔ s = [].
Proof. by destruct s. Qed.

Lemma truthy_app_r a b : truthy b = true → truthy (a ++ b) = true.
Proof. by destruct a, b. Qed.

Lemma build_query_none props :
  V1.build_query props = None ↔ sin_domicilio props.
Proof.
  unfold V1.build_query, sin_domicilio.
  rewrite <-!falsy_nil.
  destruct (falsy (get_or_empty props "DOMICILIO_CORTO")),
    (falsy (get_or_empty props "DOMICILIO_LIMPIO")),
    (falsy (get_or_empty props "DOMICILIO")); simpl;
    try (split; [|by intros (? & ? & ?)]);
    try done;
    destruct (V1.extraer_cp_y_mpio _) as [cp mpio];
    destruct (truthy_opt _ && truthy_opt _); try done;
    by destruct (truthy_opt mpio).
Qed.

Lemma build_query_some props q :
  V1.build_query props = Some q →
  truthy q = true ∧ ∃ pre, q = pre ++ V1.estado_pais.
Proof.
  intros Hq. assert (∃ pre, q = pre ++ V1.estado_pais) as [pre ->].
  { revert Hq. unfold V1.build_query.
    destruct (falsy _ && falsy _ && falsy _); [done|].
    destruct (V1.extraer_cp_y_mpio _) as [cp mpio].
    destruct (truthy_opt _ && truthy_opt _).
    { intros [= <-].
      exists (default [] (V1.extraer_localidad (get_or_empty props "DOMICILIO"))
                ++ lit ", " ++ default [] mpio).
      by rewrite <-!(assoc_L (++)). }
    destruct (truthy_opt mpio); intros [= <-]; by eexists. }
  split; [by apply truthy_app_r | by exists pre].
Qed.

Lemma estados_distintos :
  OK ≠ SIN_DIRECCION ∧ SIN_MATCH ≠ SIN_DIRECCION ∧ OK ≠ SIN_MATCH.
Proof. by split_and!. Qed.

(** *** The cache along a run *)

Lemma lookup_guardado geocode st q :
  V1.cache (V1.lookup geocode st q).2 !! q = Some (V1.lookup geocode st q).1.
Proof.
  unfold V1.lookup. destruct (V1.cache st !! q) as [v|] eqn:Hq; simpl.
  - done.
  - by rewrite lookup_insert_eq.
Qed.

Lemma lookup_monotono geocode st q q' v :
  V1.cache st !! q' = Some v →
  V1.cache (V1.lookup geocode st q).2 !! q' = Some v.
Proof.
  unfold V1.lookup. intros Hv.
  destruct (V1.cache st !! q) as [w|] eqn:Hq; simpl; [done|].
  rewrite lookup_insert_ne; [done|]. intros ->. congruence.
Qed.

Lemma paso_monotono geocode st feat q' v :
  V1.cache st !! q' = Some v →
  V1.cache (V1.paso geocode st feat).1 !! q' = Some v.
Proof.
  intros Hv. unfold V1.paso. destruct (negb _); [done|].
  set (q := default [] _).
  pose proof (lookup_monotono geocode st q q' v Hv) as Hl.
  by destruct (V1.lookup geocode st q) as [[loc|] st'].
Qed.

Lemma bucle_monotono geocode features : ∀ st q' v,
  V1.cache st !! q' = Some v →
  V1.cache (V1.bucle geocode st features).1 !! q' = Some v.
Proof.
  induction features as [|feat rest IH]; intros st q' v Hv; [done|]. simpl.
  pose proof (paso_monotono geocode st feat q' v Hv) as Hp.
  destruct (V1.paso geocode st feat) as [st1 feat']. simpl in Hp.
  specialize (IH st1 q' v Hp).
  by destruct (V1.bucle geocode st1 rest) as [st2 rest'].
Qed.

(** A record that went to the cache: the entry under its query, and
    the status and geometry that entry gives. *)
Definition resuelto (cache : gmap str (option location)) (f : feature) : Prop :=
  ∃ q v, query_of f = Some q ∧ cache !! q = Some v
         ∧ geometry f = punto <$> v
         ∧ status_of f = Some (match v with Some _ => OK | None => SIN_MATCH end).

Lemma paso_resuelto geocode st feat :
  is_Some (properties feat) →
  let r := V1.paso geocode st feat in
  status_of r.2 ≠ Some SIN_DIRECCION → resuelto (V1.cache r.1) r.2.
Proof.
  intros [props Hprops]. unfold V1.paso. rewrite Hprops. simpl.
  destruct (negb _).
  { unfold status_of. simpl. by rewrite lookup_insert_eq. }
  set (q := default [] _). intros _.
  pose proof (lookup_guardado geocode st q) as Hg.
  destruct (V1.lookup geocode st q) as [[loc|] st']; simpl in *.
  - exists q, (Some loc). unfold query_of, status_of. simpl.
    rewrite lookup_insert_eq, lookup_insert_ne by done.
    by rewrite lookup_insert_eq.
  - exists q, None. unfold query_of, status_of. simpl.
    rewrite lookup_insert_eq, lookup_insert_ne by done.
    by rewrite lookup_insert_eq.
Qed.

Lemma resuelto_monotono (c c' : gmap str (option location)) f :
  (∀ q v, c !! q = Some v → c' !! q = Some v) →
  resuelto c f → resuelto c' f.
Proof.
  intros Hm (q & v & Hq & Hc & Hg & Hs). exists q, v. auto.
Qed.

Lemma bucle_resuelto geocode features : ∀ st,
  Forall (λ f, is_Some (properties f)) features →
  let r := V1.bucle geocode st features in
  Forall (λ f, status_of f ≠ Some SIN_DIRECCION → resuelto (V1.cache r.1) f)
         r.2.
Proof.
  induction features as [|feat rest IH]; intros st Hwf; simpl; [constructor|].
  apply Forall_cons in Hwf as [Hf Hwf].
  pose proof (paso_resuelto geocode st feat Hf) as Hp.
  destruct (V1.paso geocode st feat) as [st1 feat'] eqn:Hpaso. simpl in Hp.
  specialize (IH st1 Hwf).
  pose proof (bucle_monotono geocode rest st1) as Hm.
  destruct (V1.bucle geocode st1 rest) as [st2 rest']. simpl in *.
  constructor; [|done].
  intros Hs. eapply resuelto_monotono; [apply Hm | by apply Hp].
Qed.

End V1Loop.

Lemma filter_particion {A} (P : A → Prop) `{∀ x, Decision (P x)} (l : list A) :
  (length (filter P l) + length (filter (λ x, ¬ P x) l))%nat = length l.
Proof.
  induction l as [|x l IH]; [done|]. rewrite !filter_cons.
  destruct (decide (P x)), (decide (¬ P x)); simpl; try done; lia.
Qed.

(** X1: the two totals that [geocodificar_casillas.py] prints are the
    numbers of output Features with and without a geometry, and they
    add up to the number of input Features. *)
Theorem v1_totals_count_geometries `{Unicodedata}
    (geocode : geocoder) (features : list feature) :
  let r := V1.main geocode features in
  V1.ok r.1 = length (filter (λ f, is_Some (geometry f)) r.2)
  ∧ V1.fail r.1 = length (filter (λ f, ¬ is_Some (geometry f)) r.2)
  ∧ (V1.ok r.1 + V1.fail r.1)%nat = length features.
Proof.
  destruct (bucle_cuenta geocode features V1.inicio) as (Hok & Hfail & Hlen).
  unfold V1.main. simpl in *. split_and!; [done | done |].
  rewrite Hok, Hfail, <-Hlen. simpl. apply filter_particion.
Qed.

(** X2: the loop of [geocodificar_casillas.py] writes only
    GEOCOD_STATUS and GEOCOD_QUERY into a record's properties: every
    other property of the i-th input Feature is in the i-th output
    Feature with the value it had, and a Feature without properties
    stays without. *)
Theorem v1_keeps_other_properties `{Unicodedata}
    (geocode : geocoder) (features : list feature) :
  Forall2 conserva features (V1.main geocode features).2.
Proof.
  apply (bucle_Forall2 (λ _, True)).
  - intros st feat _. apply paso_conserva.
  - by apply Forall_forall.
Qed.

(** A record with properties is reported as SIN_DIRECCION exactly
    when its three address fields are empty or missing. *)
Lemma paso_direccion `{Unicodedata}
    (geocode : geocoder) (st : V1.state) (props : gmap string str)
    (g : option point) :
  status_of (V1.paso geocode st {| properties := Some props; geometry := g |}).2
  = Some SIN_DIRECCION
  ↔ sin_domicilio props.
Proof.
  pose proof (build_query_none props) as Hnone.
  unfold V1.paso. simpl.
  destruct (V1.build_query props) as [q|] eqn:Hq; simpl.
  - apply build_query_some in Hq as [Ht _]. rewrite Ht. simpl.
    assert (¬ sin_domicilio props) as Hno by (intros Hs; by apply Hnone in Hs).
    destruct (V1.lookup _ _ _) as [[loc|] st']; unfold status_of;
      simpl; rewrite lookup_insert_ne by done; rewrite lookup_insert_eq;
      (split; [by intros [=]|done]).
  - assert (sin_domicilio props) as Hs by (by apply Hnone).
    unfold status_of. simpl. by rewrite lookup_insert_eq.
Qed.

(** X3: in [geocodificar_casillas.py] a record is reported as
    SIN_DIRECCION exactly when DOMICILIO_CORTO, DOMICILIO_LIMPIO and
    DOMICILIO are all empty or missing, which is when [build_query]
    returns [None]; such a record gets no geometry and causes no call.
    Any other record carries a query that ends with
    ", Guanajuato, México". *)
Theorem v1_sin_direccion_iff_no_address `{Unicodedata}
    (geocode : geocoder) (st : V1.state) (props : gmap string str)
    (g : option point) :
  let r := V1.paso geocode st {| properties := Some props; geometry := g |} in
  (V1.build_query props = None ↔ sin_domicilio props)
  ∧ (status_of r.2 = Some SIN_DIRECCION ↔ sin_domicilio props)
  ∧ (sin_domicilio props → geometry r.2 = None ∧ V1.calls r.1 = V1.calls st)
  ∧ (¬ sin_domicilio props →
     ∃ pre, query_of r.2 = Some (pre ++ V1.estado_pais)).
Proof.
  intros r. pose proof (build_query_none props) as Hnone.
  split; [done|]. subst r. unfold V1.paso. simpl.
  destruct (V1.build_query props) as [q|] eqn:Hq; simpl.
  - apply build_query_some in Hq as [Ht [pre ->]]. rewrite Ht. simpl.
    assert (¬ sin_domicilio props) as Hno by (intros Hs; by apply Hnone in Hs).
    destruct (V1.lookup _ _ _) as [[loc|] st']; unfold status_of, query_of;
      simpl; rewrite lookup_insert_eq, lookup_insert_ne by done;
      rewrite lookup_insert_eq.
    + split_and!; [|done|by exists pre]. split; [by intros [=]|done].
    + split_and!; [|done|by exists pre]. split; [by intros [=]|done].
  - assert (sin_domicilio props) as Hs by (by apply Hnone).
    unfold status_of. simpl. rewrite lookup_insert_eq.
    split_and!; [done | done | done].
Qed.


Definition casilla_hallada : feature :=
  {| properties := Some
       (<["GEOCOD_QUERY"%string := consulta_ejemplo]>
       (<["GEOCOD_STATUS"%string := OK]>
          {[ "DOMICILIO"%string := lit "CALLE HIDALGO 12" ]}));
     geometry := Some (punto centro_estado) |}.

(** The service finds the place when first asked and nothing later. *)
Definition solo_la_primera : geocoder :=
  λ n _, match n with O => Found centro_estado | S _ => NoMatch end.

(** X4: in a run of [geocodificar_casillas.py], two records that went
    out with the same query carry the same status and the same
    geometry, whatever the service would have answered a second
    time. *)
Theorem v1_same_query_same_answer `{Unicodedata}
    (geocode : geocoder) (features : list feature) (f1 f2 : feature) (q : str) :
  Forall (λ f, is_Some (properties f)) features →
  f1 ∈ (V1.main geocode features).2 →
  f2 ∈ (V1.main geocode features).2 →
  status_of f1 ≠ Some SIN_DIRECCION →
  status_of f2 ≠ Some SIN_DIRECCION →
  query_of f1 = Some q →
  query_of f2 = Some q →
  geometry f1 = geometry f2 ∧ status_of f1 = status_of f2.
Proof.
  intros Hwf Hf1 Hf2 Hs1 Hs2 Hq1 Hq2.
  pose proof (bucle_resuelto geocode features V1.inicio Hwf) as Hall.
  simpl in Hall. rewrite Forall_forall in Hall.
  destruct (Hall f1 Hf1 Hs1) as (q1 & v1 & Hq1' & Hc1 & Hg1 & Hst1).
  destruct (Hall f2 Hf2 Hs2) as (q2 & v2 & Hq2' & Hc2 & Hg2 & Hst2).
  assert (q1 = q) as -> by congruence. assert (q2 = q) as -> by congruence.
  assert (v1 = v2) as -> by congruence.
  by rewrite Hg1, Hg2, Hst1, Hst2.
Qed.

Definition casilla_vecina : feature :=
  {| properties := Some {[ "DOMICILIO"%string := lit "CALLE HIDALGO 12";
                           "CASILLA_ID"%string := lit "C1" ]};
     geometry := None |}.

Definition vecina_hallada : feature :=
  {| properties := Some
       (<["GEOCOD_QUERY"%string := consulta_ejemplo]>
       (<["GEOCOD_STATUS"%string := OK]>
          {[ "DOMICILIO"%string := lit "CALLE HIDALGO 12";
             "CASILLA_ID"%string := lit "C1" ]}));
     geometry := Some (punto centro_estado) |}.

Lemma v1_same_query_same_answer_witness :
  (@V1.main Latin1.table solo_la_primera [casilla_ejemplo; casilla_vecina]).2
  = [casilla_hallada; vecina_hallada]
  ∧ geometry casilla_hallada = geometry vecina_hallada
  ∧ status_of casilla_hallada = status_of vecina_hallada.
Proof.
  assert ((@V1.main Latin1.table solo_la_primera
             [casilla_ejemplo; casilla_vecina]).2
          = [casilla_hallada; vecina_hallada]) as Hout
    by (vm_compute; reflexivity).
  split; [exact Hout|].
  apply (@v1_same_query_same_answer Latin1.table solo_la_primera
           [casilla_ejemplo; casilla_vecina] casilla_hallada vecina_hallada
           consulta_ejemplo).
  - repeat constructor; by eexists.
  - rewrite Hout. apply list_elem_of_here.
  - rewrite Hout. apply list_elem_of_further, list_elem_of_here.
  - vm_compute. discriminate.
  - vm_compute. discriminate.
  - vm_compute. reflexivity.
  - vm_compute. reflexivity.
Defined.

(** ** The loop of [geocodificar_casillas_gto_v2.py] *)

Section V2Loop.
Context `{Unicodedata}.

(** The candidates of a row, as [main] computes them. *)
Definition consultas_de (mapa_muni : gmap str str) (row : gmap string str)
  : list str :=
  let localidad := V2.campo row "LOCALIDAD" in
  let municipio := default [] (mapa_muni !! V2.campo row "SECCION") in
  let dom_limpio := V2Text.limpiar_frases_basura (V2.campo row "DOMICILIO") in
  let dom_corto := V2Text.construir_domicilio_corto dom_limpio (Some localidad) in
  V2Text.armar_queries_geocod dom_corto (Some localidad) (Some municipio).

(** The candidates that are sent: [if not q: continue]. *)
Definition no_vacias (qs : list str) : list str := filter (λ q, q ≠ []) qs.

Lemma no_vacias_cons q qs :
  no_vacias (q :: qs) = if falsy q then no_vacias qs else q :: no_vacias qs.
Proof.
  unfold no_vacias. rewrite filter_cons.
  destruct (decide (q ≠ [])) as [Hq|Hq]; destruct q; simpl; try done.
  by destruct Hq.
Qed.

(** The loop over the candidates sends a prefix of them, in order. *)
Lemma probar_calls geocode queries : ∀ st r,
  ∃ k, V2.calls (V2.probar geocode st r queries).1
       = V2.calls st ++ take k (no_vacias queries).
Proof.
  induction queries as [|q rest IH]; intros st r.
  { exists O. simpl. by rewrite app_nil_r. }
  simpl. rewrite no_vacias_cons. destruct (falsy q); [apply IH|].
  destruct (geocode _ q) as [loc| |].
  - by exists 1%nat.
  - destruct (IH (V2.llamado st q)
                {| V2.i_geometry := V2.i_geometry r;
                   V2.geocod_status := V2.geocod_status r;
                   V2.geocod_query := q |}) as [k Hk].
    exists (S k). rewrite Hk. simpl. by rewrite <-(assoc_L (++)).
  - destruct (IH (V2.llamado st q) r) as [k Hk].
    exists (S k). rewrite Hk. simpl. by rewrite <-(assoc_L (++)).
Qed.

(** The loop raises [ok_count] exactly when it ends with status OK, and
    then with a geometry; otherwise status and geometry are as they
    were.  It never touches [fail_count]. *)
Lemma probar_cuenta geocode queries : ∀ st r,
  let p := V2.probar geocode st r queries in
  V2.fail_count p.1 = V2.fail_count st
  ∧ ((V2.geocod_status p.2 = OK ∧ is_Some (V2.i_geometry p.2)
      ∧ V2.ok_count p.1 = S (V2.ok_count st))
     ∨ (V2.geocod_status p.2 = V2.geocod_status r
        ∧ V2.i_geometry p.2 = V2.i_geometry r
        ∧ V2.ok_count p.1 = V2.ok_count st)).
Proof.
  induction queries as [|q rest IH]; intros st r; simpl.
  { split; [done | by right]. }
  destruct (falsy q); [apply IH|].
  destruct (geocode _ q) as [loc| |].
  - simpl. split; [done|]. left. split_and!; [done | by eexists | done].
  - apply (IH (V2.llamado st q)
             {| V2.i_geometry := V2.i_geometry r;
                V2.geocod_status := V2.geocod_status r;
                V2.geocod_query := q |}).
  - apply (IH (V2.llamado st q) r).
Qed.

(** When the loop ends with status OK, the recorded query is the last
    one sent, and the geometry is what the service answered to it. *)
Lemma probar_ok geocode queries : ∀ st r,
  V2.geocod_status r ≠ OK →
  let p := V2.probar geocode st r queries in
  V2.geocod_status p.2 = OK →
  ∃ loc,
    last (V2.calls p.1) = Some (V2.geocod_query p.2)
    ∧ geocode (length (V2.calls p.1) - 1)%nat (V2.geocod_query p.2) = Found loc
    ∧ V2.i_geometry p.2 = Some (punto loc).
Proof.
  induction queries as [|q rest IH]; intros st r Hr; simpl; [done|].
  destruct (falsy q); [by apply IH|].
  destruct (geocode _ q) as [loc| |] eqn:Hg.
  - simpl. intros _. exists loc. rewrite last_snoc, length_app. simpl.
    replace (length (V2.calls st) + 1 - 1)%nat with (length (V2.calls st)) by lia.
    done.
  - by apply IH.
  - by apply IH.
Qed.

(** When it does not, every candidate was sent. *)
Lemma probar_todas geocode queries : ∀ st r,
  let p := V2.probar geocode st r queries in
  V2.geocod_status r ≠ OK →
  V2.geocod_status p.2 ≠ OK →
  V2.calls p.1 = V2.calls st ++ no_vacias queries.
Proof.
  induction queries as [|q rest IH]; intros st r; simpl.
  { intros _ _. by rewrite app_nil_r. }
  rewrite no_vacias_cons. destruct (falsy q); [apply IH|].
  destruct (geocode _ q) as [loc| |].
  - simpl. by intros _ Hne.
  - intros Hr Hp. rewrite IH by done. simpl. by rewrite <-(assoc_L (++)).
  - intros Hr Hp. rewrite IH by done. simpl. by rewrite <-(assoc_L (++)).
Qed.

(** When no call raises and the loop does not end with OK, the
    recorded query is the last candidate sent. *)
Lemma probar_sin_excepcion geocode queries : ∀ st r,
  (∀ n q, geocode n q ≠ Raised) →
  let p := V2.probar geocode st r queries in
  V2.geocod_status r ≠ OK →
  V2.geocod_status p.2 ≠ OK →
  V2.geocod_query p.2 = default (V2.geocod_query r) (last (no_vacias queries)).
Proof.
  intros st r Hg. revert st r.
  induction queries as [|q rest IH]; intros st r; simpl; [done|].
  rewrite no_vacias_cons. destruct (falsy q); [apply IH|].
  destruct (geocode _ q) as [loc| |] eqn:Hq.
  - simpl. by intros _ Hne.
  - intros Hr Hp. rewrite IH by done. simpl. rewrite last_cons.
    by destruct (last (no_vacias rest)).
  - by apply Hg in Hq.
Qed.

(** One row, with the loop over its candidates singled out. *)
Lemma paso_probar mapa_muni geocode st row :
  let p := V2.probar geocode st
             {| V2.i_geometry := None; V2.geocod_status := SIN_MATCH;
                V2.geocod_query := [] |}
             (consultas_de mapa_muni row) in
  let r := V2.paso mapa_muni geocode st row in
  status_of r.2 = Some (V2.geocod_status p.2)
  ∧ query_of r.2 = Some (V2.geocod_query p.2)
  ∧ geometry r.2 = V2.i_geometry p.2
  ∧ V2.calls r.1 = V2.calls p.1
  ∧ V2.ok_count r.1 = V2.ok_count p.1
  ∧ V2.fail_count r.1
    = (if bool_decide (V2.geocod_status p.2 ≠ OK)
       then S (V2.fail_count p.1) else V2.fail_count p.1).
Proof.
  unfold V2.paso, consultas_de.
  destruct (V2.probar _ _ _ _) as [st' r']. unfold status_of, query_of. simpl.
  rewrite lookup_insert_eq, lookup_insert_ne by done. rewrite lookup_insert_eq.
  split_and!; try done; by destruct (bool_decide _).
Qed.

(** A row raises exactly one of the two counters. *)
Lemma paso_cuenta_v2 mapa_muni geocode st row :
  let r := V2.paso mapa_muni geocode st row in
  (status_of r.2 = Some OK
   ∧ V2.ok_count r.1 = S (V2.ok_count st)
   ∧ V2.fail_count r.1 = V2.fail_count st)
  ∨ (status_of r.2 = Some SIN_MATCH
     ∧ V2.ok_count r.1 = V2.ok_count st
     ∧ V2.fail_count r.1 = S (V2.fail_count st)).
Proof.
  destruct (paso_probar mapa_muni geocode st row)
    as (Hs & _ & _ & _ & Hok & Hfail).
  set (r0 := {| V2.i_geometry := None; V2.geocod_status := SIN_MATCH;
                V2.geocod_query := [] |}) in *.
  destruct (probar_cuenta geocode (consultas_de mapa_muni row) st r0)
    as [Hf [(Hst & _ & Hc)|(Hst & _ & Hc)]]; cbv zeta.
  - left. rewrite Hs, Hok, Hfail, Hst, Hc, Hf.
    rewrite bool_decide_eq_false_2; [done|]. by intros Hne.
  - right. rewrite Hs, Hok, Hfail, Hst, Hc, Hf.
    by rewrite bool_decide_eq_true_2.
Qed.

Lemma bucle_cuenta_v2 mapa_muni geocode rows : ∀ st,
  let r := V2.bucle mapa_muni geocode st rows in
  V2.ok_count r.1
  = (V2.ok_count st + length (filter (λ f, status_of f = Some OK) r.2))%nat
  ∧ V2.fail_count r.1
    = (V2.fail_count st
       + length (filter (λ f, status_of f = Some SIN_MATCH) r.2))%nat
  ∧ (V2.ok_count r.1 + V2.fail_count r.1
     = V2.ok_count st + V2.fail_count st + length rows)%nat.
Proof.
  induction rows as [|row rest IH]; intros st; cbv zeta; cbn [V2.bucle].
  { cbn [fst snd filter list_filter length]. split_and!; lia. }
  pose proof (paso_cuenta_v2 mapa_muni geocode st row) as Hp.
  destruct (V2.paso mapa_muni geocode st row) as [st1 feat].
  cbv zeta in Hp. cbn [fst snd] in Hp.
  specialize (IH st1). cbv zeta in IH.
  destruct (V2.bucle mapa_muni geocode st1 rest) as [st2 rest'].
  cbn [fst snd length] in *.
  destruct IH as (Hok & Hfail & Hsum). rewrite !filter_cons.
  destruct Hp as [(Hs & Hok1 & Hfail1)|(Hs & Hok1 & Hfail1)]; rewrite Hs.
  - destruct (decide (Some OK = Some OK)); [|done].
    destruct (decide (Some OK = Some SIN_MATCH)); [done|].
    simpl. split_and!; lia.
  - destruct (decide (Some SIN_MATCH = Some OK)); [done|].
    destruct (decide (Some SIN_MATCH = Some SIN_MATCH)); [|done].
    simpl. split_and!; lia.
Qed.

(** At most four candidates. *)
Lemma unicos_length seen qs : (length (V2Text.unicos seen qs) ≤ length qs)%nat.
Proof.
  revert seen. induction qs as [|q qs IH]; intros seen; simpl; [done|].
  destruct (decide (q ∈ seen)).
  - specialize (IH seen). lia.
  - simpl. specialize (IH ({[q]} ∪ seen)). lia.
Qed.

Lemma armar_queries_geocod_length dc loc muni :
  (length (V2Text.armar_queries_geocod dc loc muni) ≤ 4)%nat.
Proof.
  unfold V2Text.armar_queries_geocod.
  etrans; [apply unicos_length|].
  unfold V2Text.queries_norm. rewrite length_fmap, !length_app.
  unfold V2Text.bloque1, V2Text.bloque2, V2Text.bloque3.
  repeat match goal with |- context [if ?b then _ else _] => destruct b end;
    simpl; lia.
Qed.

Lemma no_vacias_length qs : (length (no_vacias qs) ≤ length qs)%nat.
Proof. apply length_filter. Qed.

Lemma paso_calls_v2 mapa_muni geocode st row :
  ∃ k, V2.calls (V2.paso mapa_muni geocode st row).1
       = V2.calls st ++ take k (no_vacias (consultas_de mapa_muni row)).
Proof.
  destruct (paso_probar mapa_muni geocode st row) as (_ & _ & _ & -> & _).
  apply probar_calls.
Qed.

Lemma bucle_calls_v2 mapa_muni geocode rows : ∀ st,
  (length (V2.calls (V2.bucle mapa_muni geocode st rows).1)
   ≤ length (V2.calls st) + 4 * length rows)%nat.
Proof.
  induction rows as [|row rest IH]; intros st; cbn [V2.bucle length].
  { cbn [fst]. lia. }
  destruct (paso_calls_v2 mapa_muni geocode st row) as [k Hk].
  destruct (V2.paso mapa_muni geocode st row) as [st1 feat]. cbn [fst] in Hk.
  specialize (IH st1).
  destruct (V2.bucle mapa_muni geocode st1 rest) as [st2 rest'].
  cbn [fst] in *.
  rewrite Hk, length_app, length_take in IH.
  pose proof (no_vacias_length (consultas_de mapa_muni row)).
  pose proof (armar_queries_geocod_length
                (V2Text.construir_domicilio_corto
                   (V2Text.limpiar_frases_basura (V2.campo row "DOMICILIO"))
                   (Some (V2.campo row "LOCALIDAD")))
                (Some (V2.campo row "LOCALIDAD"))
                (Some (default [] (mapa_muni !! V2.campo row "SECCION")))).
  unfold consultas_de in *. lia.
Qed.

End V2Loop.

(** X5: the two totals that [geocodificar_casillas_gto_v2.py] prints
    are the numbers of output Features with status OK and with status
    SIN_MATCH, and they add up to the number of rows. *)
Theorem v2_totals_count_statuses `{Unicodedata}
    (muni_rows rows : list (gmap string str)) (geocode : geocoder) :
  let r := V2.main muni_rows rows geocode in
  V2.ok_count r.1 = length (filter (λ f, status_of f = Some OK) r.2)
  ∧ V2.fail_count r.1
    = length (filter (λ f, status_of f = Some SIN_MATCH) r.2)
  ∧ (V2.ok_count r.1 + V2.fail_count r.1)%nat = length rows.
Proof.
  pose proof (bucle_cuenta_v2 (V2.cargar_mapa_seccion_municipio muni_rows)
                geocode rows V2.inicio) as Hc.
  cbv zeta in Hc. unfold V2.main. cbv zeta.
  change (V2.ok_count V2.inicio) with O in Hc.
  change (V2.fail_count V2.inicio) with O in Hc.
  cbn [Nat.add] in Hc. exact Hc.
Qed.

(** X6: for one row, [geocodificar_casillas_gto_v2.py] sends a prefix
    of the row's non-empty candidates, in their order, hence at most
    four queries; a run over n rows makes at most 4n calls. *)
Theorem v2_calls_are_prefix_of_candidates `{Unicodedata}
    (mapa_muni : gmap str str) (geocode : geocoder) (st : V2.state)
    (row : gmap string str) (muni_rows rows : list (gmap string str)) :
  (∃ extra,
      V2.calls (V2.paso mapa_muni geocode st row).1 = V2.calls st ++ extra
      ∧ extra `prefix_of` no_vacias (consultas_de mapa_muni row)
      ∧ (length extra ≤ 4)%nat)
  ∧ (length (V2.calls (V2.main muni_rows rows geocode).1)
     ≤ 4 * length rows)%nat.
Proof.
  split.
  - destruct (paso_calls_v2 mapa_muni geocode st row) as [k Hk].
    exists (take k (no_vacias (consultas_de mapa_muni row))).
    split_and!; [done | |].
    + exists (drop k (no_vacias (consultas_de mapa_muni row))).
      by rewrite take_drop.
    + rewrite length_take.
      pose proof (no_vacias_length (consultas_de mapa_muni row)).
      pose proof (armar_queries_geocod_length
                    (V2Text.construir_domicilio_corto
                       (V2Text.limpiar_frases_basura (V2.campo row "DOMICILIO"))
                       (Some (V2.campo row "LOCALIDAD")))
                    (Some (V2.campo row "LOCALIDAD"))
                    (Some (default [] (mapa_muni !! V2.campo row "SECCION")))).
      unfold consultas_de in *. lia.
  - pose proof (bucle_calls_v2 (V2.cargar_mapa_seccion_municipio muni_rows)
                  geocode rows V2.inicio) as Hc.
    change (length (V2.calls V2.inicio)) with O in Hc. exact Hc.
Qed.

(** X7: a row of [geocodificar_casillas_gto_v2.py] that comes out OK
    records the last query sent for it, and its geometry is the point
    the service answered to that call; a row that does not come out OK
    had every one of its non-empty candidates sent. *)
Theorem v2_stops_at_first_success `{Unicodedata}
    (mapa_muni : gmap str str) (geocode : geocoder) (st : V2.state)
    (row : gmap string str) :
  let r := V2.paso mapa_muni geocode st row in
  (status_of r.2 = Some OK →
   ∃ q loc,
     query_of r.2 = Some q
     ∧ last (V2.calls r.1) = Some q
     ∧ geocode (length (V2.calls r.1) - 1)%nat q = Found loc
     ∧ geometry r.2 = Some (punto loc))
  ∧ (status_of r.2 ≠ Some OK →
     V2.calls r.1 = V2.calls st ++ no_vacias (consultas_de mapa_muni row)).
Proof.
  destruct (paso_probar mapa_muni geocode st row)
    as (Hs & Hq & Hg & Hc & _ & _).
  set (r0 := {| V2.i_geometry := None; V2.geocod_status := SIN_MATCH;
                V2.geocod_query := [] |}) in *.
  assert (V2.geocod_status r0 ≠ OK) as Hr0 by done.
  cbv zeta. rewrite Hs, Hq, Hg, Hc. split.
  - intros [= Hok].
    destruct (probar_ok geocode (consultas_de mapa_muni row) st r0 Hr0 Hok)
      as (loc & Hlast & Hans & Hgeo).
    by exists (V2.geocod_query
                 (V2.probar geocode st r0 (consultas_de mapa_muni row)).2), loc.
  - intros Hne. apply probar_todas; [done|]. by intros Heq; rewrite Heq in Hne.
Qed.

(** X8: when no call of the service raises, a row of
    [geocodificar_casillas_gto_v2.py] that comes out SIN_MATCH records
    the last of its non-empty candidates as GEOCOD_QUERY. *)
Theorem v2_records_last_candidate `{Unicodedata}
    (mapa_muni : gmap str str) (geocode : geocoder) (st : V2.state)
    (row : gmap string str) :
  (∀ n q, geocode n q ≠ Raised) →
  let r := V2.paso mapa_muni geocode st row in
  status_of r.2 = Some SIN_MATCH →
  query_of r.2
  = Some (default [] (last (no_vacias (consultas_de mapa_muni row)))).
Proof.
  intros Hg.
  destruct (paso_probar mapa_muni geocode st row) as (Hs & Hq & _).
  set (r0 := {| V2.i_geometry := None; V2.geocod_status := SIN_MATCH;
                V2.geocod_query := [] |}) in *.
  cbv zeta. rewrite Hs, Hq. intros [= Hst]. f_equal.
  apply (probar_sin_excepcion geocode (consultas_de mapa_muni row) st r0 Hg).
  - done.
  - by rewrite Hst.
Qed.

Lemma v2_records_last_candidate_witness :
  let r := @V2.paso Latin1.table {[ lit "1480" := lit "LEON" ]}
             (λ _ _, NoMatch) V2.inicio fila_hidalgo in
  status_of r.2 = Some SIN_MATCH
  ∧ query_of r.2 = Some (lit "Guanajuato, Mexico").
Proof.
  intros r. split; [vm_compute; reflexivity|].
  assert (Some (default [] (last (no_vacias
            (@consultas_de Latin1.table {[ lit "1480" := lit "LEON" ]}
               fila_hidalgo))))
          = Some (lit "Guanajuato, Mexico")) as <- by (vm_compute; reflexivity).
  apply (@v2_records_last_candidate Latin1.table {[ lit "1480" := lit "LEON" ]}
           (λ _ _, NoMatch) V2.inicio fila_hidalgo).
  - intros n q. discriminate.
  - vm_compute. reflexivity.
Defined.

(** ** The short address of [geocodificar_casillas_gto_v2.py] *)

Section DomicilioCorto.
Context `{Unicodedata}.
Import PyFacts.

Lemma contains_nil s : Py.contains [] s = true.
Proof. by destruct s. Qed.

Lemma contains_sufijo sub pre : Py.contains sub (pre ++ sub) = true.
Proof. apply contains_subcadena. exists pre, []. by rewrite app_nil_r. Qed.

Lemma upper_app a b : Py.upper (a ++ b) = Py.upper a ++ Py.upper b.
Proof. apply flat_map_app. Qed.

End DomicilioCorto.

(** X9: [construir_domicilio_corto] appends the trimmed locality to the
    address, after ", ", exactly when its upper-case form does not
    occur in the upper-cased address; so the upper-cased result always
    contains the upper-cased locality, and an address that already
    names the locality is returned as it is. *)
Theorem construir_domicilio_corto_names_locality `{Unicodedata}
    (domicilio_limpio : str) (localidad : option str) :
  let loc := Py.strip (default [] localidad) in
  let r := V2Text.construir_domicilio_corto domicilio_limpio localidad in
  Py.contains (Py.upper loc) (Py.upper r) = true
  ∧ (Py.contains (Py.upper loc) (Py.upper domicilio_limpio) = true →
     r = domicilio_limpio)
  ∧ (Py.contains (Py.upper loc) (Py.upper domicilio_limpio) = false →
     r = if truthy domicilio_limpio
         then domicilio_limpio ++ lit ", " ++ loc else loc).
Proof.
  unfold V2Text.construir_domicilio_corto. cbv zeta.
  set (loc := Py.strip (default [] localidad)).
  destruct (Py.contains (Py.upper loc) (Py.upper domicilio_limpio)) eqn:Hc.
  - rewrite andb_false_r.
    assert (Py.join (lit ", ")
              (if truthy domicilio_limpio then [] ++ [domicilio_limpio] else [])
            = domicilio_limpio) as ->
      by (by destruct domicilio_limpio).
    split_and!; [done | done | discriminate].
  - destruct loc as [|c loc'] eqn:Hloc.
    { change (Py.upper []) with (@nil Z) in Hc.
      by rewrite contains_nil in Hc. }
    rewrite <-Hloc in *. assert (truthy loc = true) as -> by (by rewrite Hloc).
    cbn [andb negb].
    destruct domicilio_limpio as [|d dl]; cbn [truthy falsy negb app Py.join].
    + split_and!; [|discriminate|done].
      apply PyFacts.contains_subcadena. exists [], []. by rewrite app_nil_r.
    + split_and!; [|discriminate|done].
      change (d :: dl ++ lit ", " ++ loc) with ((d :: dl) ++ lit ", " ++ loc).
      rewrite (assoc_L (++)), upper_app. apply contains_sufijo.
Qed.

(** ** The table of municipalities *)

Lemma truthy_ne s : truthy s = true ↔ s ≠ [].
Proof. by destruct s. Qed.

Lemma cargar_mapa_snoc rows row :
  V2.cargar_mapa_seccion_municipio (rows ++ [row])
  = let sec := V2.campo row "SECCION" in
    let mun := V2.campo row "MUNICIPIO" in
    if truthy sec && truthy mun
    then <[sec := mun]> (V2.cargar_mapa_seccion_municipio rows)
    else V2.cargar_mapa_seccion_municipio rows.
Proof. unfold V2.cargar_mapa_seccion_municipio. by rewrite foldl_app. Qed.

(** X10: [cargar_mapa_seccion_municipio] maps a section to the
    municipality of the last row of the table that names that section
    and has a municipality; rows whose trimmed SECCION or MUNICIPIO is
    empty leave the table as it is, and no key or value of the result
    is empty. *)
Theorem cargar_mapa_last_row_wins
    (rows : list (gmap string str)) (sec mun : str) :
  V2.cargar_mapa_seccion_municipio rows !! sec = Some mun
  ↔ ∃ pre row post,
      rows = pre ++ row :: post
      ∧ V2.campo row "SECCION" = sec ∧ V2.campo row "MUNICIPIO" = mun
      ∧ sec ≠ [] ∧ mun ≠ []
      ∧ Forall (λ r, ¬ (V2.campo r "SECCION" = sec
                        ∧ V2.campo r "MUNICIPIO" ≠ [])) post.
Proof.
  induction rows as [|r rows IH] using rev_ind.
  { split; [done|]. intros (pre & row & post & Heq & _). by destruct pre. }
  rewrite cargar_mapa_snoc. cbv zeta.
  set (s := V2.campo r "SECCION"). set (m := V2.campo r "MUNICIPIO").
  split.
  - intros Hl. destruct (truthy s && truthy m) eqn:Hv.
    + apply andb_prop in Hv as [Hs Hm].
      apply truthy_ne in Hs, Hm.
      destruct (decide (s = sec)) as [Heq|Hne].
      * rewrite <-Heq in *. rewrite lookup_insert_eq in Hl. injection Hl as <-.
        exists rows, r, []. by split_and!.
      * rewrite lookup_insert_ne in Hl by done.
        apply IH in Hl as (pre & row & post & -> & H1 & H2 & H3 & H4 & H5).
        exists pre, row, (post ++ [r]). split_and!; try done.
        { by rewrite <-(assoc_L (++)). }
        apply Forall_app. split; [done|]. constructor; [|done].
        by intros [? _].
    + apply IH in Hl as (pre & row & post & -> & H1 & H2 & H3 & H4 & H5).
      exists pre, row, (post ++ [r]). split_and!; try done.
      { by rewrite <-(assoc_L (++)). }
      apply Forall_app. split; [done|]. constructor; [|done].
      intros [Hs Hm]. fold s in Hs. fold m in Hm.
      rewrite <-Hs in H3. apply truthy_ne in H3, Hm.
      by rewrite H3, Hm in Hv.
  - intros (pre & row & post & Heq & H1 & H2 & H3 & H4 & H5).
    destruct post as [|x post _] using rev_ind.
    + apply app_inj_tail in Heq as [-> ->]. unfold s, m. rewrite H1, H2.
      apply truthy_ne in H3, H4. rewrite H3, H4. simpl.
      by rewrite lookup_insert_eq.
    + rewrite app_comm_cons, (assoc_L (++)) in Heq.
      apply app_inj_tail in Heq as [-> ->].
      apply Forall_app in H5 as [H5 Hx]. apply Forall_cons in Hx as [Hx _].
      assert (V2.cargar_mapa_seccion_municipio (pre ++ row :: post) !! sec
              = Some mun) as Hl.
      { apply IH. exists pre, row, post. by split_and!. }
      destruct (truthy s && truthy m) eqn:Hv; [|done].
      apply andb_prop in Hv as [Hs Hm]. apply truthy_ne in Hm.
      rewrite lookup_insert_ne; [done|]. intros Heq. by apply Hx.
Qed.

(** ** The shape of what the normalizers return *)

(** X11: what [limpiar_frases_basura] returns is upper-case,
    single-spaced and has no comma or space at either end: upper-casing
    it, splitting and joining it on white space, and stripping ", " all
    leave it as it is. *)
Theorem limpiar_frases_basura_shape
    `{U : Unicodedata} {LU : @UpperLaws U} (domicilio : str) :
  let y := V2Text.limpiar_frases_basura domicilio in
  Py.upper y = y
  ∧ Py.join (lit " ") (Py.split y) = y
  ∧ Py.strip_chars y (lit ", ") = y.
Proof.
  intros y.
  destruct (limpiar_frases_basura_forma domicilio)
    as (Hfijo & (ws & Hws & Hy) & Hstrip).
  fold y in Hfijo, Hy, Hstrip. split_and!.
  - by apply upper_de_fijos.
  - change (lit " ") with [32]. rewrite Hy. by apply PyFacts.join_split_join.
  - exact Hstrip.
Qed.

Lemma limpiar_frases_basura_shape_witness :
  let y := @V2Text.limpiar_frases_basura Latin1.table escuela in
  y = lit "DOMICILIO: ESCUELA BENITO JU" ++ [193]
        ++ lit "REZ, CALLE HIDALGO NO. 12"
  ∧ @Py.upper Latin1.table y = y
  ∧ Py.join (lit " ") (Py.split y) = y
  ∧ Py.strip_chars y (lit ", ") = y.
Proof.
  intros y. split; [vm_compute; reflexivity|].
  exact (@limpiar_frases_basura_shape Latin1.table latin1_upper_laws escuela).
Defined.

(** X12: what [limpiar_domicilio] returns is upper-case, has no white
    space but the plain space, and has none of ",.;- " nor any white
    space at either end. *)
Theorem limpiar_domicilio_shape
    `{U : Unicodedata} {LU : @UpperLaws U} (raw : str) :
  let y := Preparar.limpiar_domicilio raw in
  Py.upper y = y
  ∧ Forall (λ c, Py.is_space c = true → c = 32) y
  ∧ Py.strip y = y
  ∧ Py.strip_chars y (lit ",.;- ") = y.
Proof.
  intros y.
  destruct (limpiar_domicilio_forma raw) as (Hfijo & Hsolo & Hl & Hr).
  fold y in Hfijo, Hsolo, Hl, Hr.
  assert (Forall (λ c, Py.is_space c = true → en_puntuacion c = true) y) as Hsub.
  { eapply Forall_impl; [exact Hsolo|]. by intros c Hc ->%Hc. }
  split_and!.
  - by apply upper_de_fijos.
  - exact Hsolo.
  - unfold Py.strip, Py.strip_by.
    rewrite (PyFacts.lstrip_by_sub en_puntuacion) by done.
    by rewrite (PyFacts.rstrip_by_sub en_puntuacion).
  - unfold Py.strip_chars. fold en_puntuacion. unfold Py.strip_by.
    by rewrite Hl, Hr.
Qed.

Lemma limpiar_domicilio_shape_witness :
  let y := @Preparar.limpiar_domicilio Latin1.table escuela in
  y = lit "ESCUELA BENITO JU" ++ [193]
        ++ lit "REZ, CALLE HIDALGO 12 SN ESQUINA MORELOS"
  ∧ @Py.upper Latin1.table y = y
  ∧ Forall (λ c, Py.is_space c = true → c = 32) y
  ∧ Py.strip y = y
  ∧ Py.strip_chars y (lit ",.;- ") = y.
Proof.
  intros y. split; [vm_compute; reflexivity|].
  exact (@limpiar_domicilio_shape Latin1.table latin1_upper_laws escuela).
Defined.

(** ** The short address of the preparation script *)

Section CortoPrefijo.
Import Preparar PyFacts.

Lemma strip_by_cons_in p c s :
  p c = true → Py.strip_by p (c :: s) = Py.strip_by p s.
Proof. unfold Py.strip_by. simpl. by intros ->. Qed.

Lemma strip_by_snoc_in p s c :
  p c = true → Py.strip_by p (s ++ [c]) = Py.strip_by p s.
Proof.
  intros Hc. unfold Py.strip_by. rewrite lstrip_by_app.
  destruct (Py.lstrip_by p s) as [|x r] eqn:Hs.
  - simpl. by rewrite Hc.
  - rewrite rstrip_by_app. simpl. by rewrite Hc.
Qed.

Lemma strip_take_snoc p s c k :
  p c = true →
  Py.strip_by p (take k (s ++ [c])) = Py.strip_by p (take k s).
Proof.
  intros Hc. destruct (decide (k ≤ length s)%nat) as [Hk|Hk].
  - by rewrite take_app_le.
  - rewrite !take_ge; [by apply strip_by_snoc_in | lia |].
    rewrite length_app. simpl. lia.
Qed.

(** With no marker in the text, the loop leaves [corte_pos] as it
    was. *)
Lemma corte_sin_marcadores base mks : ∀ n,
  Forall (λ mk, Py.contains mk base = false) mks → corte base n mks = n.
Proof.
  unfold corte. induction mks as [|mk mks IH]; intros n Hmks; [done|].
  apply Forall_cons in Hmks as [Hmk Hmks]. simpl.
  unfold Py.contains in Hmk. apply negb_false_iff in Hmk.
  rewrite Hmk. simpl. by apply IH.
Qed.

Lemma domicilio_corto_prefijo txt :
  let base := lit " " ++ txt ++ lit " " in
  domicilio_corto txt
  = Py.strip_chars
      (Py.strip
         (take (Z.to_nat (corte base (Z.of_nat (length base)) marcadores) - 1)
               txt))
      (lit ",.;- ").
Proof.
  intros base. unfold domicilio_corto. destruct txt as [|c txt].
  { by rewrite take_nil. }
  cbn [falsy]. fold base. unfold Py.slice_to.
  set (n := Z.to_nat (corte base (Z.of_nat (length base)) marcadores)).
  f_equal. unfold base. change (lit " ") with [32].
  destruct n as [|k]; [done|].
  change (take (S k) ([32] ++ (c :: txt) ++ [32]))
    with (32 :: take k ((c :: txt) ++ [32])).
  replace (S k - 1)%nat with k by lia.
  unfold Py.strip. rewrite strip_by_cons_in by done.
  by rewrite strip_take_snoc.
Qed.

End CortoPrefijo.

(** X13: [domicilio_corto] returns a prefix of its argument, trimmed of
    white space and then of ",.;- "; the result contains none of the
    markers (" COLONIA ", " COL. ", ...); and when no marker occurs in
    the argument padded with a space on each side, the prefix is the
    whole argument. *)
Theorem domicilio_corto_is_trimmed_prefix (txt : str) :
  let base := lit " " ++ txt ++ lit " " in
  let r := Preparar.domicilio_corto txt in
  (∃ k, r = Py.strip_chars (Py.strip (take k txt)) (lit ",.;- "))
  ∧ Forall (λ mk, Py.contains mk r = false) Preparar.marcadores
  ∧ (Forall (λ mk, Py.contains mk base = false) Preparar.marcadores →
     r = Py.strip_chars (Py.strip txt) (lit ",.;- ")).
Proof.
  intros base r. split_and!.
  - eexists. apply domicilio_corto_prefijo.
  - apply domicilio_corto_sin_marcadores.
  - intros Hno. unfold r. rewrite domicilio_corto_prefijo. fold base.
    rewrite corte_sin_marcadores by done.
    rewrite Nat2Z.id, take_ge; [done|].
    unfold base. rewrite !length_app. simpl. lia.
Qed.

(** ** Accent stripping on plain text *)

Section SoloAscii.
Context `{NfdLaws}.
Import V2Text PyFacts.

Lemma ascii_espaciar text : ascii text → ascii (espaciar text).
Proof.
  intros Ht. unfold espaciar. apply Forall_join.
  - repeat constructor; lia.
  - by apply Forall_split_go.
Qed.

Lemma ascii_sin_enie s : ascii s → (241 ∉ s) ∧ (209 ∉ s).
Proof.
  unfold ascii. rewrite Forall_forall. intros Hs.
  split; intros Hin; apply Hs in Hin; lia.
Qed.

Lemma nfd_de_ascii s : ascii s → nfd s = s.
Proof.
  destruct s as [|c t]; [intros _; apply nfd_nil|]. intros Hs.
  pose proof (nfd_ascii_str t [] c [] Hs) as Hn.
  rewrite nfd_nil, app_nil_r in Hn. exact Hn.
Qed.

Lemma proteger_de_ascii s : ascii s → proteger s = s.
Proof.
  intros [H1 H2]%ascii_sin_enie. rewrite proteger_map.
  by apply mapa_tokens_id.
Qed.

End SoloAscii.

(** X14: on a text of ASCII code points, [strip_accents_keep_enie] only
    normalizes the white space (words joined by single spaces), as long
    as the result does not spell one of the two tokens
    "__enie_min__" and "__enie_may__". *)
Theorem strip_accents_keep_enie_ascii
    `{U : Unicodedata} {LN : @NfdLaws U} (text : str) :
  ascii text →
  Py.contains V2Text.tok_min (espaciar text) = false →
  Py.contains V2Text.tok_may (espaciar text) = false →
  V2Text.strip_accents_keep_enie text = espaciar text.
Proof.
  intros Ht Hmin Hmay.
  destruct (decide (text = [])) as [->|Hne]; [done|].
  rewrite strip_accents_keep_enie_steps by done. fold (espaciar text).
  pose proof (ascii_espaciar text Ht) as He.
  rewrite proteger_de_ascii, nfd_de_ascii, sin_marcas_ascii by done.
  unfold restaurar.
  rewrite (PyFacts.replace_absent _ V2Text.tok_min) by done.
  by rewrite (PyFacts.replace_absent _ V2Text.tok_may).
Qed.

Lemma strip_accents_keep_enie_ascii_witness :
  @V2Text.strip_accents_keep_enie Latin1.table
    (lit "  Calle  Hidalgo 12,   Leon ")
  = lit "Calle Hidalgo 12, Leon".
Proof.
  assert (espaciar (lit "  Calle  Hidalgo 12,   Leon ")
          = lit "Calle Hidalgo 12, Leon") as <- by (vm_compute; reflexivity).
  apply (@strip_accents_keep_enie_ascii Latin1.table latin1_nfd_laws).
  - eapply bool_decide_eq_true_1. vm_compute. reflexivity.
  - vm_compute. reflexivity.
  - vm_compute. reflexivity.
Defined.

(** ** The locality extractor of [geocodificar_casillas.py] *)

(** What [search] matched is a piece of the subject. *)
Lemma search_from_occurs r s : ∀ pos m,
  Re.search_from r pos s = Some m →
  ∃ pre w post, s = pre ++ w ++ post ∧ ReSem.denote r w (Re.m_groups m).
Proof.
  induction s as [|c s IH]; intros pos m Hs; simpl in Hs.
  - destruct (Re.match_at r pos []) as [m'|] eqn:Hm; [|done].
    injection Hs as ->.
    apply ReSem.match_at_sound in Hm as (w & s' & Heq & Hd & _).
    by exists [], w, s'.
  - destruct (Re.match_at r pos (c :: s)) as [m'|] eqn:Hm.
    + injection Hs as ->.
      apply ReSem.match_at_sound in Hm as (w & s' & Heq & Hd & _).
      by exists [], w, s'.
    + apply IH in Hs as (pre & w & post & -> & Hd).
      by exists (c :: pre), w, post.
Qed.

Section Localidad.
Context `{Unicodedata}.

Definition espacios (ws : str) : Prop := Forall (λ c, Py.is_space c = true) ws.




End Localidad.


(** ** The preparation script's [main] *)

Section Preparacion.
Context `{Unicodedata}.
Import PrepararMain.

(** The polling stations of the input, in the order [main] visits
    them. *)
Definition todas (data : list fila) : list (gmap string str) :=
  concat ((λ row, default [] (casillas row)) <$> data).

(** The Feature written for a polling station. *)
Definition esqueleto (cas : gmap string str) (f : feature) : Prop :=
  let dom := get_or_empty cas "DOMICILIO" in
  geometry f = None
  ∧ ∃ props,
      properties f = Some props
      ∧ props !! "DOMICILIO"%string = Some dom
      ∧ props !! "DOMICILIO_LIMPIO"%string
        = Some (Preparar.limpiar_domicilio dom)
      ∧ props !! "DOMICILIO_CORTO"%string
        = Some (Preparar.domicilio_corto (Preparar.limpiar_domicilio dom))
      ∧ props !! "GEOCOD_STATUS"%string = None.

(** The enriched copy of a polling station's dictionary. *)
Definition enriquecida (cas cas2 : gmap string str) : Prop :=
  let dom := get_or_empty cas "DOMICILIO" in
  cas2 !! "DOMICILIO_LIMPIO"%string = Some (Preparar.limpiar_domicilio dom)
  ∧ cas2 !! "DOMICILIO_CORTO"%string
    = Some (Preparar.domicilio_corto (Preparar.limpiar_domicilio dom))
  ∧ ∀ k : string, k ≠ "DOMICILIO_LIMPIO"%string →
                  k ≠ "DOMICILIO_CORTO"%string → cas2 !! k = cas !! k.

Lemma paso_casilla_esqueleto seccion cas :
  esqueleto cas (paso_casilla seccion cas).2.
Proof.
  unfold esqueleto, paso_casilla. cbv zeta. cbn [snd geometry properties].
  split; [done|]. eexists. split; [reflexivity|]. split_and!.
  - rewrite !lookup_insert_ne by done. by rewrite lookup_insert_eq.
  - rewrite lookup_insert_ne by done. by rewrite lookup_insert_eq.
  - by rewrite lookup_insert_eq.
  - by rewrite !lookup_insert_ne.
Qed.

Lemma paso_casilla_enriquecida seccion cas :
  enriquecida cas (paso_casilla seccion cas).1.
Proof.
  unfold enriquecida, paso_casilla. cbv zeta. cbn [fst]. split_and!.
  - rewrite lookup_insert_ne by done. by rewrite lookup_insert_eq.
  - by rewrite lookup_insert_eq.
  - intros k Hk1 Hk2. by rewrite !lookup_insert_ne.
Qed.

Lemma paso_fila_esqueleto row :
  Forall2 esqueleto (default [] (casillas row)) (paso_fila row).2.
Proof.
  unfold paso_fila. cbv zeta. cbn [snd].
  induction (default [] (casillas row)) as [|cas l IH]; [constructor|].
  rewrite !fmap_cons. constructor; [apply paso_casilla_esqueleto | exact IH].
Qed.

Lemma paso_fila_enriquecida row :
  Forall2 enriquecida (default [] (casillas row))
    (default [] (casillas (paso_fila row).1)).
Proof.
  unfold paso_fila. cbv zeta. cbn [fst casillas default].
  induction (default [] (casillas row)) as [|cas l IH]; [constructor|].
  rewrite !fmap_cons. constructor; [apply paso_casilla_enriquecida | exact IH].
Qed.

Lemma main_cons row data :
  main (row :: data)
  = ((paso_fila row).1 :: (main data).1, (paso_fila row).2 ++ (main data).2).
Proof. reflexivity. Qed.

Lemma main_esqueleto data : Forall2 esqueleto (todas data) (main data).2.
Proof.
  induction data as [|row data IH]; [constructor|].
  rewrite main_cons. unfold todas. rewrite fmap_cons. cbn [concat snd].
  apply Forall2_app; [apply paso_fila_esqueleto | exact IH].
Qed.

(** What the first pipeline makes of a Feature of the preparation
    script. *)
Lemma paso_de_esqueleto geocode st cas feat :
  esqueleto cas feat →
  let f := (V1.paso geocode st feat).2 in
  estado_ok f
  ∧ (status_of f = Some SIN_DIRECCION ↔ get_or_empty cas "DOMICILIO" = []).
Proof.
  intros (Hg & props & Hp & Hdom & Hlimpio & Hcorto & _). cbv zeta. split.
  { apply paso_estado. rewrite Hp. by eexists. }
  destruct feat as [props' g]. simpl in Hp. subst props'.
  rewrite paso_direccion. unfold sin_domicilio, get_or_empty.
  rewrite Hdom, Hlimpio, Hcorto. fold (get_or_empty cas "DOMICILIO").
  destruct (get_or_empty cas "DOMICILIO") as [|c dom] eqn:Hd.
  - by split.
  - cbn [truthy falsy negb]. split; [by intros (_ & _ & ?) | done].
Qed.

End Preparacion.

(** X16: the preparation script writes one Feature per polling
    station, in the order of the input; each has a null geometry, no
    GEOCOD_STATUS yet, the DOMICILIO of the station as it was (the
    empty string when it is missing), its cleaned form as
    DOMICILIO_LIMPIO and the short form of that as DOMICILIO_CORTO.
    The enriched rows keep their SECCION and their stations in order;
    an enriched station has the two new fields and every other field
    as it was. *)
Theorem preparar_main_one_feature_per_station `{Unicodedata}
    (data : list PrepararMain.fila) :
  let r := PrepararMain.main data in
  Forall2 esqueleto (todas data) r.2
  ∧ Forall2 (λ row row',
               PrepararMain.SECCION row' = PrepararMain.SECCION row
               ∧ Forall2 enriquecida
                   (default [] (PrepararMain.casillas row))
                   (default [] (PrepararMain.casillas row')))
            data r.1.
Proof.
  split; [apply main_esqueleto|].
  induction data as [|row data IH]; [constructor|].
  rewrite main_cons. cbn [fst]. constructor; [|exact IH].
  split; [done | apply paso_fila_enriquecida].
Qed.

(** X17: when [geocodificar_casillas.py] runs over what the
    preparation script wrote, every polling station comes out with one
    of the three statuses (and a geometry exactly when it is OK), and
    it comes out as SIN_DIRECCION exactly when its DOMICILIO was empty
    or missing. *)
Theorem preparar_then_geocodificar `{Unicodedata}
    (data : list PrepararMain.fila) (geocode : geocoder) :
  let features := (PrepararMain.main data).2 in
  Forall2 (λ cas f,
             estado_ok f
             ∧ (status_of f = Some SIN_DIRECCION
                ↔ get_or_empty cas "DOMICILIO" = []))
          (todas data) (V1.main geocode features).2.
Proof.
  intros features.
  pose proof (main_esqueleto data) as H1. fold features in H1.
  assert (Forall2 (λ feat f,
                     ∀ cas, esqueleto cas feat →
                            estado_ok f
                            ∧ (status_of f = Some SIN_DIRECCION
                               ↔ get_or_empty cas "DOMICILIO" = []))
            features (V1.main geocode features).2) as H2.
  { apply (bucle_Forall2 (λ _, True)); [|by apply Forall_forall].
    intros st feat _ cas Hcas. by apply paso_de_esqueleto. }
  eapply Forall2_trans; [|exact H1|exact H2].
  intros cas feat f Hcas Hf. by apply Hf.
Qed.

(** ** Where the coordinates come from *)

Section Procedencia.
Context `{Unicodedata}.

(** What [main] keeps of an answer of the service. *)
Definition respuesta (o : outcome) : option location :=
  match o with Found l => Some l | NoMatch => None | Raised => None end.

(** Every entry of the cache is what the service answered when the
    key was sent. *)
Definition cache_origen (geocode : geocoder) (st : V1.state) : Prop :=
  ∀ q v, V1.cache st !! q = Some v →
         ∃ n, V1.calls st !! n = Some q ∧ v = respuesta (geocode n q).

Lemma inicio_origen geocode : cache_origen geocode V1.inicio.
Proof.
  intros q v Hv. cbn [V1.inicio V1.cache] in Hv.
  by rewrite lookup_empty in Hv.
Qed.

Lemma lookup_origen geocode st q :
  cache_origen geocode st → cache_origen geocode (V1.lookup geocode st q).2.
Proof.
  intros Hinv. unfold V1.lookup.
  destruct (V1.cache st !! q) as [w|] eqn:Hq; [done|].
  intros q' v. cbn [snd V1.cache V1.calls].
  destruct (decide (q = q')) as [<-|Hne].
  - rewrite lookup_insert_eq. intros [= <-]. exists (length (V1.calls st)).
    split; [|by destruct (geocode _ q)].
    rewrite lookup_app_r by done. by rewrite Nat.sub_diag.
  - rewrite lookup_insert_ne by done. intros Hv.
    destruct (Hinv q' v Hv) as (n & Hn & ->). exists n. split; [|done].
    by apply lookup_app_l_Some.
Qed.

Lemma paso_origen geocode st feat :
  cache_origen geocode st → cache_origen geocode (V1.paso geocode st feat).1.
Proof.
  intros Hinv. unfold V1.paso. destruct (negb _); [exact Hinv|].
  set (q := default [] _).
  pose proof (lookup_origen geocode st q Hinv) as Hl.
  by destruct (V1.lookup geocode st q) as [[loc|] st'].
Qed.

Lemma bucle_origen geocode features : ∀ st,
  cache_origen geocode st →
  cache_origen geocode (V1.bucle geocode st features).1.
Proof.
  induction features as [|feat rest IH]; intros st Hinv; [done|].
  cbn [V1.bucle]. pose proof (paso_origen geocode st feat Hinv) as Hp.
  destruct (V1.paso geocode st feat) as [st1 feat']. cbn [fst] in Hp.
  specialize (IH st1 Hp).
  by destruct (V1.bucle geocode st1 rest) as [st2 rest'].
Qed.

End Procedencia.

(** X18: in a run of [geocodificar_casillas.py], a record that comes
    out OK carries the query under which some call of the run was made,
    and its geometry is the point the service answered to that call. *)
Theorem v1_geometry_is_service_answer `{Unicodedata}
    (geocode : geocoder) (features : list feature) (f : feature) :
  Forall (λ f, is_Some (properties f)) features →
  f ∈ (V1.main geocode features).2 →
  status_of f = Some OK →
  ∃ q n loc,
    query_of f = Some q
    ∧ V1.calls (V1.main geocode features).1 !! n = Some q
    ∧ geocode n q = Found loc
    ∧ geometry f = Some (punto loc).
Proof.
  intros Hwf Hf Hok.
  pose proof (bucle_resuelto geocode features V1.inicio Hwf) as Hall.
  cbv zeta in Hall. rewrite Forall_forall in Hall.
  destruct (Hall f Hf) as (q & v & Hq & Hc & Hg & Hs).
  { rewrite Hok. by intros [=]. }
  pose proof (bucle_origen geocode features V1.inicio (inicio_origen geocode))
    as Ho.
  destruct (Ho q v Hc) as (n & Hn & Hv).
  rewrite Hok in Hs. destruct v as [loc|]; [|by injection Hs].
  exists q, n, loc. split_and!; [done | exact Hn | | done].
  unfold respuesta in Hv. by destruct (geocode n q); simplify_eq.
Qed.

Lemma v1_geometry_is_service_answer_witness :
  query_of vecina_hallada = Some consulta_ejemplo
  ∧ geometry vecina_hallada = Some (punto centro_estado)
  ∧ ∃ q n loc,
      query_of vecina_hallada = Some q
      ∧ V1.calls (@V1.main Latin1.table solo_la_primera
                    [casilla_ejemplo; casilla_vecina]).1 !! n = Some q
      ∧ solo_la_primera n q = Found loc
      ∧ geometry vecina_hallada = Some (punto loc).
Proof.
  split; [vm_compute; reflexivity|]. split; [reflexivity|].
  apply (@v1_geometry_is_service_answer Latin1.table solo_la_primera
           [casilla_ejemplo; casilla_vecina] vecina_hallada).
  - repeat constructor; by eexists.
  - assert ((@V1.main Latin1.table solo_la_primera
               [casilla_ejemplo; casilla_vecina]).2
            = [casilla_hallada; vecina_hallada]) as ->
      by (vm_compute; reflexivity).
    apply list_elem_of_further, list_elem_of_here.
  - vm_compute. reflexivity.
Defined.

(** ** The cache, from the first call to the last record (claim C1) *)

Section CacheCompleto.
Context `{Unicodedata}.




End CacheCompleto.



(** ** Where the postal code and the municipality come from *)

Section CpMpio.
Context `{Unicodedata}.

Lemma cp_mpio_texto w gs :
  ReSem.denote V1.re_cp_mpio w gs →
  ∃ s1 cp s2 nombre s3,
    w = [44] ++ s1 ++ cp ++ [44] ++ s2 ++ nombre ++ [44] ++ s3
          ++ lit "GUANAJUATO"
    ∧ gs = [cp; nombre]
    ∧ espacios s1 ∧ espacios s2 ∧ espacios s3.
Proof.
  unfold V1.re_cp_mpio. cbn [ReSem.denote]. intros Hd.
  destruct Hd as (? & ? & ? & ? & -> & -> & [-> ->] & Hd).
  destruct Hd as (s1 & ? & ? & ? & -> & -> & [Hs1 ->] & Hd).
  destruct Hd as (? & ? & ? & ? & -> & -> & (? & Hcp & ->) & Hd).
  apply (ReSem.denote_Rep 5) in Hcp as (Hlen & Hdig & ->).
  destruct Hd as (? & ? & ? & ? & -> & -> & [-> ->] & Hd).
  destruct Hd as (s2 & ? & ? & ? & -> & -> & [Hs2 ->] & Hd).
  destruct Hd as (? & ? & ? & ? & -> & -> & (? & (Hne & Hnc & ->) & ->) & Hd).
  destruct Hd as (? & ? & ? & ? & -> & -> & [-> ->] & Hd).
  destruct Hd as (s3 & ? & ? & ? & -> & -> & [Hs3 ->] & Hd).
  apply ReSem.denote_Str in Hd as [-> ->].
  eexists s1, _, s2, _, s3. by split_and!.
Qed.

End CpMpio.

(** X19: when [extraer_cp_y_mpio] returns a postal code and a
    municipality, the upper-cased address contains, in this order, a
    comma, the postal code, a comma, the text whose title-cased form is
    the municipality, a comma and "GUANAJUATO", with nothing but white
    space after each comma. *)
Theorem extraer_cp_y_mpio_from_text `{Unicodedata} (dom_full : str)
    (cp mpio : str) :
  V1.extraer_cp_y_mpio dom_full = (Some cp, Some mpio) →
  ∃ s1 s2 nombre s3,
    mpio = title nombre
    ∧ espacios s1 ∧ espacios s2 ∧ espacios s3
    ∧ PyFacts.subcadena
        ([44] ++ s1 ++ cp ++ [44] ++ s2 ++ nombre ++ [44] ++ s3
           ++ lit "GUANAJUATO")
        (Py.upper dom_full).
Proof.
  unfold V1.extraer_cp_y_mpio.
  destruct (falsy dom_full); [done|]. cbv zeta.
  destruct (Re.search V1.re_cp_mpio (Py.upper dom_full)) as [m|] eqn:Hm;
    [|done].
  apply search_from_occurs in Hm as (pre & w & post & Heq & Hd).
  apply cp_mpio_texto in Hd
    as (s1 & cp' & s2 & nombre & s3 & -> & Hg & H1 & H2 & H3).
  unfold Re.group. rewrite Hg. cbn [lookup list_lookup Nat.sub default].
  intros [= <- <-]. exists s1, s2, nombre, s3.
  split_and!; try done. by exists pre, post.
Qed.

Definition domicilio_abasolo : str :=
  lit "Calle X 1, localidad alto de alcocer, 36970, abasolo, Guanajuato".

Lemma extraer_cp_y_mpio_from_text_witness :
  @V1.extraer_cp_y_mpio Latin1.table domicilio_abasolo
  = (Some (lit "36970"), Some (lit "Abasolo"))
  ∧ ∃ s1 s2 nombre s3,
      lit "Abasolo" = @title Latin1.table nombre
      ∧ espacios s1 ∧ espacios s2 ∧ espacios s3
      ∧ PyFacts.subcadena
          ([44] ++ s1 ++ lit "36970" ++ [44] ++ s2 ++ nombre ++ [44] ++ s3
             ++ lit "GUANAJUATO")
          (@Py.upper Latin1.table domicilio_abasolo).
Proof.
  assert (@V1.extraer_cp_y_mpio Latin1.table domicilio_abasolo
          = (Some (lit "36970"), Some (lit "Abasolo"))) as Heq
    by (vm_compute; reflexivity).
  split; [exact Heq|].
  exact (@extraer_cp_y_mpio_from_text Latin1.table domicilio_abasolo
           (lit "36970") (lit "Abasolo") Heq).
Defined.

(** ** What the service is asked *)

Section Consultas.
Context `{Unicodedata}.

Definition con_estado (q : str) : Prop := ∃ pre, q = pre ++ V1.estado_pais.

Lemma bucle_con_estado geocode features : ∀ st,
  Forall con_estado (V1.calls st) →
  Forall con_estado (V1.calls (V1.bucle geocode st features).1).
Proof.
  induction features as [|feat rest IH]; intros st Hst; [done|].
  cbn [V1.bucle].
  destruct (paso_calls geocode st feat) as (extra & Hc & Hex).
  destruct (V1.paso geocode st feat) as [st1 feat']. cbn [fst] in Hc.
  assert (Forall con_estado (V1.calls st1)) as Hst1.
  { rewrite Hc. apply Forall_app. split; [done|].
    destruct Hex as [->|(q & -> & Hq)]; [constructor|].
    constructor; [|constructor]. by apply build_query_some in Hq as [_ ?]. }
  specialize (IH st1 Hst1).
  by destruct (V1.bucle geocode st1 rest) as [st2 rest'].
Qed.

End Consultas.

(** X20: every query that [geocodificar_casillas.py] hands to the
    service ends with ", Guanajuato, México". *)
Theorem v1_queries_name_the_state `{Unicodedata}
    (geocode : geocoder) (features : list feature) :
  Forall (λ q, ∃ pre, q = pre ++ V1.estado_pais)
         (V1.calls (V1.main geocode features).1).
Proof. apply bucle_con_estado. constructor. Qed.

Section SinMarcas.
Context `{NfdLaws}.

Definition sin_marca (q : str) : Prop := Forall (λ c, is_Mn c = false) q.

Lemma armar_queries_geocod_sin_marcas dc loc muni :
  Forall sin_marca (V2Text.armar_queries_geocod dc loc muni).
Proof.
  apply Forall_forall. intros q Hq.
  unfold V2Text.armar_queries_geocod in Hq.
  apply elem_of_unicos in Hq as [Hq _]. unfold V2Text.queries_norm in Hq.
  apply list_elem_of_fmap in Hq as (x & -> & _).
  apply strip_accents_keep_enie_sin_marcas.
Qed.

Lemma bucle_sin_marcas mapa_muni geocode rows : ∀ st,
  Forall sin_marca (V2.calls st) →
  Forall sin_marca (V2.calls (V2.bucle mapa_muni geocode st rows).1).
Proof.
  induction rows as [|row rest IH]; intros st Hst; [done|].
  cbn [V2.bucle].
  destruct (paso_calls_v2 mapa_muni geocode st row) as [k Hk].
  destruct (V2.paso mapa_muni geocode st row) as [st1 feat]. cbn [fst] in Hk.
  assert (Forall sin_marca (V2.calls st1)) as Hst1.
  { rewrite Hk. apply Forall_app. split; [done|].
    apply Forall_take. unfold no_vacias. apply Forall_forall.
    intros q [_ Hq]%list_elem_of_filter. revert q Hq. apply Forall_forall.
    apply armar_queries_geocod_sin_marcas. }
  specialize (IH st1 Hst1).
  by destruct (V2.bucle mapa_muni geocode st1 rest) as [st2 rest'].
Qed.

End SinMarcas.

(** X21: no query that [geocodificar_casillas_gto_v2.py] hands to the
    service contains a combining mark (a code point of category Mn), so
    the accents of the input never reach the service. *)
Theorem v2_queries_have_no_marks
    `{U : Unicodedata} {LN : @NfdLaws U}
    (muni_rows rows : list (gmap string str)) (geocode : geocoder) :
  Forall (λ q, Forall (λ c, is_Mn c = false) q)
         (V2.calls (V2.main muni_rows rows geocode).1).
Proof. apply bucle_sin_marcas. constructor. Qed.

Definition fila_acentuada : gmap string str :=
  {[ "SECCION"%string := lit "1480";
     "LOCALIDAD"%string := lit "Le" ++ [243] ++ lit "n";
     "DOMICILIO"%string := lit "Calle Ju" ++ [225] ++ lit "rez 12" ]}.

Lemma v2_queries_have_no_marks_witness :
  let calls := V2.calls (@V2.main Latin1.table [fila_municipio]
                           [fila_acentuada] (λ _ _, NoMatch)).1 in
  head calls = Some (lit "CALLE JUAREZ 12, Leon, LEON, Guanajuato, Mexico")
  ∧ Forall (λ q, Forall (λ c, @is_Mn Latin1.table c = false) q) calls.
Proof.
  intros calls. split; [vm_compute; reflexivity|].
  exact (@v2_queries_have_no_marks Latin1.table latin1_nfd_laws
           [fila_municipio] [fila_acentuada] (λ _ _, NoMatch)).
Defined.
